(** * cthash: the SHA-2 block engine of [include/cthash/hasher.hpp]

    A shallow embedding of the streaming SHA-2 hasher: the big-endian
    byte/word codec, the message scheduler [build_staging], the compression
    function [rounds], the buffer accumulator
    [update_to_buffer_and_process], the finalizer [finalize_buffer] and the
    result writer [write_result_into], followed by the properties the
    specification states about them.

    Conventions.
    - A [std::byte] is a [Byte.byte]; [byte_to_Z] and [byte_of_Z] are the two
      [static_cast]s between [std::byte] and an unsigned integer.
    - An unsigned integer of [n] bytes is a [Z] between 0 and [2^(8n) - 1]; every
      operation that can leave that range is followed by [wrap].
    - [std::array] and [std::span] are lists; [a[i] = v] is [<[i:=v]> a],
      reading [a[i]] is [a !!! i].  Sizes and indices are [nat]. *)

From stdpp Require Import list.
From Stdlib Require Import ZArith Lia.
From Stdlib Require Import Init.Byte.
From Stdlib Require Strings.Byte.
From coqutil Require Import Z.bitblast.

#[global] Instance byte_inhabited : Inhabited byte := populate x00.

(** ** Bytes and fixed-width unsigned integers *)

(** [static_cast<T>(b)] for a [std::byte] [b]. *)
Definition byte_to_Z (b : byte) : Z := Z.of_N (Byte.to_N b).

(** [static_cast<std::byte>(v)]: the low eight bits of [v]. *)
Definition byte_of_Z (v : Z) : byte :=
  match Byte.of_N (Z.to_N (v mod 256)) with
  | Some b => b
  | None => x00
  end.

(** Reduction of a value to an unsigned type of [bits] bits. *)
Definition wrap (bits : nat) (v : Z) : Z := (v mod 2 ^ Z.of_nat bits)%Z.

(** Addition in an unsigned type of [bits] bits. *)
Definition wadd (bits : nat) (a b : Z) : Z := wrap bits (a + b).

(** [std::rotr(x, s)] on an unsigned type of [bits] bits:
    [r = s % bits]; [x] when [r] is zero, otherwise
    [(x >> r) | (x << (bits - r))]. *)
Definition rotr (bits : nat) (x s : Z) : Z :=
  let r := (s mod Z.of_nat bits)%Z in
  if (r =? 0)%Z then x
  else Z.lor (Z.shiftr x r) (wrap bits (Z.shiftl x (Z.of_nat bits - r))).

(** [~x] on an unsigned type of [bits] bits. *)
Definition wnot (bits : nat) (x : Z) : Z := wrap bits (Z.lnot x).

(** ** Byte/word codec (hasher.hpp, lines 35-57) *)

(** [unwrap_bigendian_number<T>::operator=(value)] with [sizeof(T) = bytes]:
    the contents of the window [ref] after the assignment,
    [ref[Idx] = static_cast<std::byte>(value >> ((bits - 8) - 8 * Idx))]
    for [Idx = 0 .. bytes - 1]. *)
Definition unwrap_bigendian_number (bytes : nat) (value : Z) : list byte :=
  let bits := bytes * 8 in
  (fun Idx => byte_of_Z (Z.shiftr value (Z.of_nat ((bits - 8) - 8 * Idx))))
    <$> seq 0 bytes.

(** [cast_from_bytes<T>(in)] with [sizeof(T) = size]: the fold
    [(static_cast<T>(in[Idx]) << ((sizeof(T) - 1 - Idx) * 8)) | ...]
    over [Idx = 0 .. size - 1]; the shift is done in [T]. *)
Definition cast_from_bytes (size : nat) (inp : list byte) : Z :=
  foldr Z.lor 0%Z
    ((fun Idx => wrap (size * 8)
                   (Z.shiftl (byte_to_Z (inp !!! Idx)) (Z.of_nat ((size - 1 - Idx) * 8))))
       <$> seq 0 size).

(** ** Config table

    The per-variant tables live outside hasher.hpp; the engine only reads
    the members below.  [word_size] is [sizeof(staging_item_t)], which is
    also [sizeof(state_item_t)] (the round constants and the initial values
    of a variant have the same element type), and [length_size] is
    [sizeof(length_type)]. *)
Record Config := {
  word_size : nat;
  length_size : nat;
  length_size_bits : nat;
  block_bits : nat;
  initial_values : list Z;
  rounds_number : nat;
  constants : list Z;
  staging_constants : list Z;
  compress_constants : list Z;
  digest_length : nat;
  values_for_output : nat
}.

(** ** Hasher state (hasher.hpp, lines 79-87)

    [total_length] is a [length_type]: every update of it is reduced by
    [wrap length_bits].  [block_used] is an [unsigned] that the code keeps
    at most [block_size_bytes], so its arithmetic never wraps and it is a
    [nat]. *)
Record internal_hasher := {
  hash : list Z;
  total_length : Z;
  block : list byte;
  block_used : nat
}.

Section Engine.

Variable config : Config.

Definition block_size_bytes : nat := block_bits config / 8.
Definition word_bits : nat := word_size config * 8.
Definition length_bits : nat := length_size config * 8.
Definition staging_size : nat := length (constants config).
Definition first_part_size : nat := block_size_bytes / word_size config.

(** The constructor: [hash{config.initial_values}, total_length{0},
    block_used{0}].  The block is not initialised by the constructor and is
    never read before it is written; it is taken as all zero. *)
Definition new_hasher : internal_hasher :=
  {| hash := initial_values config;
     total_length := 0;
     block := replicate block_size_bytes x00;
     block_used := 0 |}.

(** *** Message scheduler (lines 93-111) *)

(** Body of the second loop of [build_staging] at index [i]. *)
Definition staging_step (w : list Z) (i : nat) : list Z :=
  let c := staging_constants config in
  let s0 := Z.lxor (Z.lxor (rotr word_bits (w !!! (i - 15)) (c !!! 0))
                           (rotr word_bits (w !!! (i - 15)) (c !!! 1)))
                   (Z.shiftr (w !!! (i - 15)) (c !!! 2)) in
  let s1 := Z.lxor (Z.lxor (rotr word_bits (w !!! (i - 2)) (c !!! 3))
                           (rotr word_bits (w !!! (i - 2)) (c !!! 4)))
                   (Z.shiftr (w !!! (i - 2)) (c !!! 5)) in
  <[i := wadd word_bits (wadd word_bits (wadd word_bits (w !!! (i - 16)) s0)
                                        (w !!! (i - 7))) s1]> w.

(** Body of the first loop of [build_staging] at index [i]. *)
Definition staging_load (chunk : list byte) (w : list Z) (i : nat) : list Z :=
  <[i := cast_from_bytes (word_size config)
           (take (word_size config) (drop (i * word_size config) chunk))]> w.

(** [build_staging(chunk)].  The array [w] starts uninitialised (taken as
    all zero) and is filled front to back by the two loops
    [for (i = 0; i != first_part_size; ++i)] and
    [for (i = first_part_size; i != staging_size; ++i)]. *)
Definition build_staging (chunk : list byte) : list Z :=
  let w := replicate staging_size 0%Z in
  let w := foldl (staging_load chunk) w (seq 0 first_part_size) in
  foldl staging_step w (seq first_part_size (staging_size - first_part_size)).

(** *** Compression (lines 113-152) *)

(** One iteration of the round loop.  [a .. h] are references to
    [wvar[0] .. wvar[7]], so the eight assignments act on the array one
    after the other, in the order of the source. *)
Definition round_body (w : list Z) (wvar : list Z) (i : nat) : list Z :=
  let k := compress_constants config in
  let a := wvar !!! 0 in let b := wvar !!! 1 in let c := wvar !!! 2 in
  let e := wvar !!! 4 in let f := wvar !!! 5 in let g := wvar !!! 6 in
  let h := wvar !!! 7 in
  let S1 := Z.lxor (Z.lxor (rotr word_bits e (k !!! 0)) (rotr word_bits e (k !!! 1)))
                   (rotr word_bits e (k !!! 2)) in
  let choice := Z.lxor (Z.land e f) (Z.land (wnot word_bits e) g) in
  let temp1 := wadd word_bits
                 (wadd word_bits (wadd word_bits (wadd word_bits h S1) choice)
                    (constants config !!! i))
                 (w !!! i) in
  let S0 := Z.lxor (Z.lxor (rotr word_bits a (k !!! 3)) (rotr word_bits a (k !!! 4)))
                   (rotr word_bits a (k !!! 5)) in
  let majority := Z.lxor (Z.lxor (Z.land a b) (Z.land a c)) (Z.land b c) in
  let temp2 := wadd word_bits S0 majority in
  let wvar := <[7 := wvar !!! 6]> wvar in
  let wvar := <[6 := wvar !!! 5]> wvar in
  let wvar := <[5 := wvar !!! 4]> wvar in
  let wvar := <[4 := wadd word_bits (wvar !!! 3) temp1]> wvar in
  let wvar := <[3 := wvar !!! 2]> wvar in
  let wvar := <[2 := wvar !!! 1]> wvar in
  let wvar := <[1 := wvar !!! 0]> wvar in
  <[0 := wadd word_bits temp1 temp2]> wvar.

(** Body of the store-back loop: [state[i] += wvar[i]]. *)
Definition add_back (wvar : list Z) (state : list Z) (i : nat) : list Z :=
  <[i := wadd word_bits (state !!! i) (wvar !!! i)]> state.

(** [rounds(w, state)]; the result is the new contents of [state]. *)
Definition rounds (w : list Z) (state : list Z) : list Z :=
  let wvar := foldl (round_body w) state (seq 0 (rounds_number config)) in
  foldl (add_back wvar) state (seq 0 (length state)).

(** *** Buffer accumulator (lines 155-183) *)

(** [update_to_buffer_and_process(in)].  One unit of [fuel] is one
    iteration of the [for (;;)] loop.  [None] stands for a fault:
    [subspan(block_used)] beyond the block, or no fuel left. *)
Fixpoint update_to_buffer_and_process (fuel : nat) (h : internal_hasher)
    (inp : list byte) : option internal_hasher :=
  match fuel with
  | 0 => None
  | S fuel =>
    if decide (block_used h ≤ block_size_bytes) then
      let remaining_free_space := block_size_bytes - block_used h in
      let to_copy := take (length inp `min` remaining_free_space) inp in
      let block' := list_inserts (block_used h) to_copy (block h) in
      let total' := wrap length_bits (total_length h + Z.of_nat (length to_copy)) in
      if decide (length to_copy ≠ remaining_free_space) then
        Some {| hash := hash h; total_length := total'; block := block';
                block_used := block_used h + length to_copy |}
      else
        let w := build_staging block' in
        update_to_buffer_and_process fuel
          {| hash := rounds w (hash h); total_length := total'; block := block';
             block_used := 0 |}
          (drop (length to_copy) inp)
    else None
  end.

(** *** Finalizer (lines 185-209) *)

(** [finalize_buffer()]; [None] is the failed [assert]. *)
Definition finalize_buffer (h : internal_hasher) : option internal_hasher :=
  if decide (block_used h < length (block h)) then
    let free_space := length (block h) - block_used h in
    let blk := <[block_used h := x80]> (block h) in
    let blk := list_inserts (S (block_used h))
                 (replicate (length (block h) - S (block_used h)) x00) blk in
    let '(hsh, blk) :=
      if decide (free_space < 1 + length_size_bits config / 8) then
        (rounds (build_staging blk) (hash h), replicate (length blk) x00)
      else (hash h, blk) in
    let blk := list_inserts (length blk - length_size config)
                 (unwrap_bigendian_number (length_size config)
                    (wrap length_bits (total_length h * 8)))
                 blk in
    Some {| hash := rounds (build_staging blk) hsh;
            total_length := total_length h;
            block := blk;
            block_used := block_used h |}
  else None.

(** *** Result writer (lines 211-218) *)

(** [write_result_into(out)]; the result is the new contents of [out]. *)
Definition write_result_into (h : internal_hasher) (out : list byte) : list byte :=
  foldl (fun out i =>
           list_inserts (i * word_size config)
             (unwrap_bigendian_number (word_size config) (hash h !!! i)) out)
        out (seq 0 (values_for_output config)).

(** ** The public hasher (lines 222-270) *)

(** [update(std::span<const std::byte>)] and the overloads that only adapt
    their argument to a byte span.  The loop runs at most once per block of
    input, plus once; the fuel given covers that. *)
Definition update (h : internal_hasher) (input : list byte) : option internal_hasher :=
  update_to_buffer_and_process (length input + 2) h input.

(** [update(const T & lit)] for a character array [lit]:
    [std::span(lit, std::size(lit) - 1)]. *)
Definition update_literal (h : internal_hasher) (lit : list byte) : option internal_hasher :=
  update h (take (length lit - 1) lit).

(** [final(digest)]: the hasher afterwards and the contents of [digest]. *)
Definition final (h : internal_hasher) (digest : list byte)
    : option (internal_hasher * list byte) :=
  h' ← finalize_buffer h;
  Some (h', write_result_into h' digest).

(** [final()]: the digest goes to a fresh [result_t] of [digest_length]
    bytes. *)
Definition final_value (h : internal_hasher) : option (internal_hasher * list byte) :=
  final h (replicate (digest_length config) x00).

(** [size()]. *)
Definition size (h : internal_hasher) : Z := total_length h.

(** A sequence of [update] calls, one per element of [inputs]. *)
Definition updates (h : internal_hasher) (inputs : list (list byte)) : option internal_hasher :=
  foldl (fun oh input => h ← oh; update h input) (Some h) inputs.

End Engine.

(** ** Variant tables used to run the engine *)

(** The Config catalog is not part of hasher.hpp.  The specification asks
    for the constants of the published SHA-2 standard, which defines them
    from the first primes: the initial values are the leading fractional
    bits of their square roots, the round constants those of their cube
    roots. *)

(** Modelled from the spec: primality by trial division, for the primes
    behind the tables of the missing Config catalog. *)
Definition is_prime (p : nat) : bool :=
  forallb (λ d, negb (p mod d =? 0)) (seq 2 (p - 2)).

(** Modelled from the spec: the first [n] primes ([n] at most 80), for the
    tables of the missing Config catalog. *)
Definition first_primes (n : nat) : list nat :=
  take n (filter (λ p, is_prime p = true) (seq 2 408)).

(** Modelled from the spec: integer cube root below [2 ^ bits], found bit
    by bit from the top, for the round constants of the missing Config
    catalog. *)
Definition icbrt (bits : nat) (n : Z) : Z :=
  foldl (λ r b, let r' := (r + 2 ^ Z.of_nat b)%Z in
                if (r' * r' * r' <=? n)%Z then r' else r)
        0%Z (rev (seq 0 bits)).

(** Modelled from the spec: the first [w] fractional bits of the square
    root of [p], an initial value of the missing Config catalog. *)
Definition frac_sqrt (w p : nat) : Z :=
  (Z.sqrt (Z.of_nat p * 2 ^ Z.of_nat (2 * w)) mod 2 ^ Z.of_nat w)%Z.

(** Modelled from the spec: the first [w] fractional bits of the cube root
    of [p], a round constant of the missing Config catalog. *)
Definition frac_cbrt (w p : nat) : Z :=
  (icbrt (w + 3) (Z.of_nat p * 2 ^ Z.of_nat (3 * w)) mod 2 ^ Z.of_nat w)%Z.

(** Modelled from the spec: [initial_values] of the missing SHA-256
    Config. *)
Definition sha256_initial_values : list Z :=
  Eval vm_compute in frac_sqrt 32 <$> first_primes 8.

(** Modelled from the spec: [constants] of the missing SHA-256 Config. *)
Definition sha256_constants : list Z :=
  Eval vm_compute in frac_cbrt 32 <$> first_primes 64.

(** Modelled from the spec: [initial_values] of the missing SHA-512
    Config. *)
Definition sha512_initial_values : list Z :=
  Eval vm_compute in frac_sqrt 64 <$> first_primes 8.

(** Modelled from the spec: [constants] of the missing SHA-512 Config. *)
Definition sha512_constants : list Z :=
  Eval vm_compute in frac_cbrt 64 <$> first_primes 80.

(** Modelled from the spec: the SHA-256 table of the per-variant Config
    catalog, which is not part of hasher.hpp; the numbers are those of the
    published SHA-2 standard, [length_type] is [uint64_t]. *)
Definition sha256_config : Config :=
  {| word_size := 4;
     length_size := 8;
     length_size_bits := 64;
     block_bits := 512;
     initial_values := sha256_initial_values;
     rounds_number := 64;
     constants := sha256_constants;
     staging_constants := [7; 18; 3; 17; 19; 10]%Z;
     compress_constants := [6; 11; 25; 2; 13; 22]%Z;
     digest_length := 32;
     values_for_output := 8 |}.

(** Modelled from the spec: the SHA-512 table of the per-variant Config
    catalog, which is not part of hasher.hpp; the numbers are those of the
    published SHA-2 standard, [length_type] is [uint64_t] and the length
    field has 128 bits. *)
Definition sha512_config : Config :=
  {| word_size := 8;
     length_size := 8;
     length_size_bits := 128;
     block_bits := 1024;
     initial_values := sha512_initial_values;
     rounds_number := 80;
     constants := sha512_constants;
     staging_constants := [1; 8; 7; 19; 61; 6]%Z;
     compress_constants := [14; 18; 41; 28; 34; 39]%Z;
     digest_length := 64;
     values_for_output := 8 |}.

(** * Specification-level definitions *)

(** ** Big-endian positional notation *)

(** The value of a byte string read most-significant byte first. *)
Fixpoint be_value (l : list byte) : Z :=
  match l with
  | [] => 0
  | b :: l => Z.lor (Z.shiftl (byte_to_Z b) (8 * Z.of_nat (length l))) (be_value l)
  end.

(** The [n] low-order bytes of [v], most-significant first. *)
Fixpoint be_bytes (n : nat) (v : Z) : list byte :=
  match n with
  | 0 => []
  | S n => byte_of_Z (Z.shiftr v (8 * Z.of_nat n)) :: be_bytes n v
  end.


(** ** The round functions as the specification writes them *)

Section SpecFunctions.

Variable config : Config.

Local Abbreviation W := (word_bits config).

(** [s0] of the message schedule for the word [x = w[i-15]]. *)
Definition schedule_s0 (x : Z) : Z :=
  let c := staging_constants config in
  Z.lxor (Z.lxor (rotr W x (c !!! 0)) (rotr W x (c !!! 1))) (Z.shiftr x (c !!! 2)).

(** [s1] of the message schedule for the word [x = w[i-2]]. *)
Definition schedule_s1 (x : Z) : Z :=
  let c := staging_constants config in
  Z.lxor (Z.lxor (rotr W x (c !!! 3)) (rotr W x (c !!! 4))) (Z.shiftr x (c !!! 5)).

(** The eight working variables [a .. h]. *)
Definition working : Type := Z * Z * Z * Z * Z * Z * Z * Z.

Definition working_list (v : working) : list Z :=
  let '(a, b, c, d, e, f, g, h) := v in [a; b; c; d; e; f; g; h].

(** One compression round: the simultaneous assignment
    [h,g,f,e,d,c,b,a = g,f,e,(d+temp1),c,b,a,(temp1+temp2)]. *)
Definition round_spec (w : list Z) (v : working) (i : nat) : working :=
  let '(a, b, c, d, e, f, g, h) := v in
  let k := compress_constants config in
  let S1 := Z.lxor (Z.lxor (rotr W e (k !!! 0)) (rotr W e (k !!! 1))) (rotr W e (k !!! 2)) in
  let choice := Z.lxor (Z.land e f) (Z.land (wnot W e) g) in
  let temp1 := wrap W (h + S1 + choice + constants config !!! i + w !!! i) in
  let S0 := Z.lxor (Z.lxor (rotr W a (k !!! 3)) (rotr W a (k !!! 4))) (rotr W a (k !!! 5)) in
  let majority := Z.lxor (Z.lxor (Z.land a b) (Z.land a c)) (Z.land b c) in
  let temp2 := wrap W (S0 + majority) in
  (wrap W (temp1 + temp2), a, b, c, wrap W (d + temp1), e, f, g).

(** All rounds followed by the feed-forward [state[j] += working[j]]. *)
Definition rounds_spec (w : list Z) (state : working) : list Z :=
  let v := foldl (round_spec w) state (seq 0 (rounds_number config)) in
  zip_with (λ s x, wrap W (s + x)) (working_list state) (working_list v).

End SpecFunctions.

(** ** States of the streaming interface *)

Section Streaming.

Variable config : Config.

(** The representation invariant of a hasher between calls. *)
Definition hasher_ok (h : internal_hasher) : Prop :=
  length (block h) = block_size_bytes config ∧
  block_used h < block_size_bytes config ∧
  (0 ≤ total_length h < 2 ^ Z.of_nat (length_bits config))%Z.

(** The states a client can hold: a new hasher, and what [update] returns
    on such a state. *)
Inductive reachable : internal_hasher → Prop :=
  | reachable_new : reachable (new_hasher config)
  | reachable_update h input h' :
      reachable h → update config h input = Some h' → reachable h'.

(** The state after one loop iteration that leaves the block partly
    filled. *)
Definition buffer_bytes (h : internal_hasher) (inp : list byte) : internal_hasher :=
  {| hash := hash h;
     total_length := wrap (length_bits config) (total_length h + Z.of_nat (length inp));
     block := list_inserts (block_used h) inp (block h);
     block_used := block_used h + length inp |}.

(** The state after one loop iteration that fills and compresses the
    block. *)
Definition flush_block (h : internal_hasher) (inp : list byte) : internal_hasher :=
  let free := block_size_bytes config - block_used h in
  let blk := list_inserts (block_used h) (take free inp) (block h) in
  {| hash := rounds config (build_staging config blk) (hash h);
     total_length := wrap (length_bits config) (total_length h + Z.of_nat free);
     block := blk;
     block_used := 0 |}.

(** The digest of a message delivered as the successive [update] calls
    [inputs] on a new hasher, then [final()]. *)
Definition digest_of (inputs : list (list byte)) : option (list byte) :=
  h ← updates config (new_hasher config) inputs;
  r ← final_value config h;
  Some r.2.

(** The number of bytes passed by a sequence of [update] calls. *)
Definition input_bytes (inputs : list (list byte)) : nat :=
  sum_list (length <$> inputs).

End Streaming.

(** ** Padding, as the specification describes it *)

Section Padding.

Variable config : Config.

(** Scheduler followed by compression: what the engine does with one
    block. *)
Definition compress (hsh : list Z) (blk : list byte) : list Z :=
  rounds config (build_staging config blk) hsh.

(** The current block after the terminator byte [0x80] has been put right
    after the buffered data and the rest has been filled with zeros. *)
Definition padded_block (h : internal_hasher) : list byte :=
  take (block_used h) (block h) ++ [x80] ++
  replicate (length (block h) - block_used h - 1) x00.

(** The bit count [total_length * 8] in [length_type]. *)
Definition bit_count (h : internal_hasher) : Z :=
  wrap (length_bits config) (total_length h * 8).

(** A block whose last [sizeof(length_type)] bytes are replaced by the bit
    count, most-significant byte first. *)
Definition with_bit_count (h : internal_hasher) (blk : list byte) : list byte :=
  take (length blk - length_size config) blk ++
  be_bytes (length_size config) (bit_count h).

End Padding.

(** ** Sample states *)

(** A SHA-256 hasher that has absorbed 56 bytes [0x61]: 8 bytes of the
    block are free, exactly the size of the length field. *)
Definition sha256_after_56 : internal_hasher :=
  {| hash := initial_values sha256_config;
     total_length := 56;
     block := replicate 56 x61 ++ replicate 8 x00;
     block_used := 56 |}.

(** A SHA-512 hasher that has absorbed the three bytes of ["abc"]. *)
Definition sha512_after_abc : internal_hasher :=
  {| hash := initial_values sha512_config;
     total_length := 3;
     block := [x61; x62; x63] ++ replicate 125 x00;
     block_used := 3 |}.

(** ** Words, buffered bytes and blocks of a message *)

(** The full [n]-byte blocks of a byte string, in order. *)
Definition full_blocks (n : nat) (l : list byte) : list (list byte) :=
  (λ i, take n (drop (i * n) l)) <$> seq 0 (length l / n).

(** What is left of a byte string after its full [n]-byte blocks. *)
Definition trailing (n : nat) (l : list byte) : list byte :=
  drop (length l / n * n) l.

(** The bytes waiting in the block buffer. *)
Definition buffered (h : internal_hasher) : list byte :=
  take (block_used h) (block h).

Section MoreSpec.

Variable config : Config.

(** A value of the word type. *)
Definition word_ok (x : Z) : Prop :=
  (0 ≤ x < 2 ^ Z.of_nat (word_bits config))%Z.

(** A state array: eight values of the word type. *)
Definition words_ok (l : list Z) : Prop :=
  length l = 8 ∧ Forall word_ok l.

(** The number of zero bytes of the padding of a message of [len] bytes:
    the least number that makes message, terminator, zeros and length
    field a whole number of blocks. *)
Definition zero_pad (len : nat) : nat :=
  (block_size_bytes config
   - (len + 1 + length_size_bits config / 8) mod block_size_bytes config)
  mod block_size_bytes config.

(** The padding of a message of [len] bytes: terminator, zeros, and the
    bit count on [length_size_bits] bits, most-significant byte first. *)
Definition sha_padding (len : nat) : list byte :=
  [x80] ++ replicate (zero_pad len) x00 ++
  be_bytes (length_size_bits config / 8) (Z.of_nat len * 8).

(** A new hasher whose block, which the constructor leaves uninitialised,
    holds [blk]. *)
Definition new_hasher_with (blk : list byte) : internal_hasher :=
  {| hash := initial_values config;
     total_length := 0;
     block := blk;
     block_used := 0 |}.

(** [update] calls on [h], one per element of [inputs], then [final()]. *)
Definition digest_from (h : internal_hasher) (inputs : list (list byte))
    : option (list byte) :=
  h' ← updates config h inputs;
  r ← final_value config h';
  Some r.2.

(** [build_staging(chunk)] with the initial content of the array [w], which
    the source leaves uninitialised, as a parameter: the two loops of lines
    99-108 run on [w0]. *)
Definition build_staging_from (w0 : list Z) (chunk : list byte) : list Z :=
  let w := foldl (staging_load config chunk) w0 (seq 0 (first_part_size config)) in
  foldl (staging_step config) w
    (seq (first_part_size config) (staging_size config - first_part_size config)).

End MoreSpec.

(** A SHA-256 hasher whose byte count is [2^61 + 3]: the bit count does not
    fit [length_type]. *)
Definition sha256_overflowing : internal_hasher :=
  {| hash := initial_values sha256_config;
     total_length := 2 ^ 61 + 3;
     block := [x61; x62; x63] ++ replicate 61 x00;
     block_used := 3 |}.

(** * Properties *)

(** ** Bytes and wrap-around *)

Lemma byte_to_Z_range (b : byte) : (0 ≤ byte_to_Z b < 256)%Z.
Proof.
  unfold byte_to_Z. pose proof (Byte.to_N_bounded b). lia.
Qed.

Lemma byte_to_of_Z (v : Z) : byte_to_Z (byte_of_Z v) = (v mod 256)%Z.
Proof.
  unfold byte_to_Z, byte_of_Z.
  destruct (Byte.of_N (Z.to_N (v mod 256))) as [b|] eqn:E.
  - apply Byte.to_of_N in E. rewrite E.
    rewrite Z2N.id; [done | apply Z.mod_pos_bound; lia].
  - apply Byte.of_N_None_iff in E.
    pose proof (Z.mod_pos_bound v 256). lia.
Qed.

Lemma byte_of_to_Z (b : byte) : byte_of_Z (byte_to_Z b) = b.
Proof.
  unfold byte_of_Z. rewrite Z.mod_small by apply byte_to_Z_range.
  unfold byte_to_Z. by rewrite N2Z.id, Byte.of_to_N.
Qed.

Lemma wrap_range bits v : (0 ≤ wrap bits v < 2 ^ Z.of_nat bits)%Z.
Proof. unfold wrap. apply Z.mod_pos_bound. lia. Qed.

Lemma wrap_small bits v : (0 ≤ v < 2 ^ Z.of_nat bits)%Z → wrap bits v = v.
Proof. unfold wrap. apply Z.mod_small. Qed.

Lemma wrap_wrap bits v : wrap bits (wrap bits v) = wrap bits v.
Proof. apply wrap_small, wrap_range. Qed.

Lemma wadd_wrap_l bits a b : wadd bits (wrap bits a) b = wrap bits (a + b).
Proof. unfold wadd, wrap. by rewrite Zplus_mod_idemp_l. Qed.

Lemma wrap_add_l bits a b : wrap bits (wrap bits a + b) = wrap bits (a + b).
Proof. apply wadd_wrap_l. Qed.

Lemma wadd_wrap_r bits a b : wadd bits a (wrap bits b) = wrap bits (a + b).
Proof. unfold wadd, wrap. by rewrite Zplus_mod_idemp_r. Qed.

Lemma testbit_above (a n i : Z) :
  (0 ≤ a < 2 ^ n)%Z → (n ≤ i)%Z → Z.testbit a i = false.
Proof.
  intros Ha Hi. destruct (Z_lt_le_dec n 0) as [Hn|Hn].
  - rewrite Z.pow_neg_r in Ha by done. lia.
  - rewrite <- (Z.mod_small a (2 ^ n)) by done.
    apply Z.mod_pow2_bits_high. lia.
Qed.

(** ** The codec as a big-endian positional system *)

Lemma length_be_bytes n v : length (be_bytes n v) = n.
Proof. induction n; simpl; auto. Qed.

Lemma be_value_range l : (0 ≤ be_value l < 2 ^ (8 * Z.of_nat (length l)))%Z.
Proof.
  induction l as [|b l IH]; simpl length; cbn [be_value]; [simpl; lia|].
  pose proof (byte_to_Z_range b) as Hb.
  rewrite Z.or_to_plus.
  - rewrite Z.shiftl_mul_pow2 by lia.
    replace (8 * Z.of_nat (S (length l)))%Z with (8 * Z.of_nat (length l) + 8)%Z by lia.
    rewrite Z.pow_add_r by lia. nia.
  - Z.bitblast. destruct (Z_lt_le_dec i (8 * Z.of_nat (length l))).
    + rewrite Z.testbit_neg_r by lia. done.
    + rewrite (testbit_above _ _ i IH) by done. apply andb_false_r.
Qed.

Lemma be_value_be_bytes n v :
  be_value (be_bytes n v) = (v mod 2 ^ (8 * Z.of_nat n))%Z.
Proof.
  induction n as [|n IH]; cbn [be_bytes be_value].
  - simpl. by rewrite Z.mod_1_r.
  - rewrite IH, length_be_bytes, byte_to_of_Z.
    change 256%Z with (2 ^ 8)%Z.
    replace (8 * Z.of_nat (S n))%Z with (8 * Z.of_nat n + 8)%Z by lia.
    rewrite <- !Z.land_ones by lia. Z.bitblast.
Qed.

(** [cast_from_bytes] never overflows its type: every term of the fold is
    below [2 ^ (8 * size)], and the fold is [be_value]. *)
Lemma cast_from_bytes_be_value (l : list byte) :
  cast_from_bytes (length l) l = be_value l.
Proof.
  unfold cast_from_bytes.
  transitivity (foldr Z.lor 0%Z
    ((λ Idx, Z.shiftl (byte_to_Z (l !!! Idx)) (Z.of_nat ((length l - 1 - Idx) * 8)))
       <$> seq 0 (length l))).
  { f_equal. apply list_fmap_ext. intros j Idx [-> HI]%lookup_seq. simpl in *.
    apply wrap_small. pose proof (byte_to_Z_range (l !!! j)) as Hb.
    rewrite Z.shiftl_mul_pow2 by lia. split; [lia|].
    replace (Z.of_nat (length l * 8)) with
      (8 + Z.of_nat ((length l - 1 - j) * 8) + 8 * Z.of_nat j)%Z by lia.
    rewrite !Z.pow_add_r by lia.
    assert (0 < 2 ^ Z.of_nat ((length l - 1 - j) * 8))%Z by lia.
    assert (1 ≤ 2 ^ (8 * Z.of_nat j))%Z by lia.
    change (2 ^ 8)%Z with 256%Z. nia. }
  induction l as [|b l IH]; [done|].
  simpl length. cbn [seq fmap list_fmap foldr be_value]. f_equal.
  - f_equal. lia.
  - rewrite <- IH, <- fmap_S_seq, <- list_fmap_compose.
    f_equal. apply list_fmap_ext. intros j ? _. simpl.
    do 3 f_equal. lia.
Qed.

Lemma unwrap_bigendian_number_be_bytes n v :
  unwrap_bigendian_number n v = be_bytes n v.
Proof.
  unfold unwrap_bigendian_number.
  induction n as [|n IH]; [done|].
  cbn [seq fmap list_fmap be_bytes]. f_equal.
  - do 2 f_equal. lia.
  - rewrite <- IH, <- fmap_S_seq, <- list_fmap_compose.
    apply list_fmap_ext. intros j Idx [-> HI]%lookup_seq. simpl in *.
    do 3 f_equal. lia.
Qed.

Lemma length_unwrap_bigendian_number n v :
  length (unwrap_bigendian_number n v) = n.
Proof. by rewrite unwrap_bigendian_number_be_bytes, length_be_bytes. Qed.

(** C7. Decoding the big-endian window written by the encoder gives back
    the value, for every window size and every value of that many bytes, 0
    and the maximum included; the supported words are those of 4 and 8
    bytes. *)
Theorem codec_round_trip (size : nat) (v : Z) :
  (0 ≤ v < 2 ^ (8 * Z.of_nat size))%Z →
  cast_from_bytes size (unwrap_bigendian_number size v) = v.
Proof.
  intros Hv. rewrite unwrap_bigendian_number_be_bytes.
  rewrite <- (length_be_bytes size v) at 1.
  rewrite cast_from_bytes_be_value, be_value_be_bytes.
  by apply Z.mod_small.
Qed.

(** ** Loops that fill an array front to back *)

Section FillLoop.

Context {A : Type} `{!Inhabited A}.
Variables (F : list A → nat → A) (step : list A → nat → list A).
Hypothesis step_eq : ∀ w i, step w i = <[i := F w i]> w.

Lemma length_fill w a n : length (foldl step w (seq a n)) = length w.
Proof.
  revert w a. induction n as [|n IH]; intros w a; [done|].
  simpl. by rewrite IH, step_eq, length_insert.
Qed.

Lemma fill_outside w a n j :
  j < a ∨ a + n ≤ j → foldl step w (seq a n) !!! j = w !!! j.
Proof.
  revert w a. induction n as [|n IH]; intros w a Hj; [done|].
  simpl. rewrite IH by lia. rewrite step_eq.
  apply list_lookup_total_insert_ne. lia.
Qed.

(** When [F w i] only reads entries below [i], every entry written by the
    loop satisfies its defining equation in the final array. *)
Lemma fill_inside w a n :
  a + n ≤ length w →
  (∀ i u v, a ≤ i → (∀ k, k < i → u !!! k = v !!! k) → F u i = F v i) →
  ∀ j, a ≤ j < a + n →
    foldl step w (seq a n) !!! j = F (foldl step w (seq a n)) j.
Proof.
  intros Hlen Hloc. induction n as [|n IH]; intros j Hj; [lia|].
  rewrite seq_S, foldl_app. simpl.
  set (r := foldl step w (seq a n)) in *.
  assert (length r = length w) as Hr by apply length_fill.
  rewrite !step_eq.
  destruct (decide (j = a + n)) as [->|Hne].
  - rewrite list_lookup_total_insert_eq by lia.
    apply Hloc; [lia|]. intros k Hk.
    symmetry. apply list_lookup_total_insert_ne. lia.
  - rewrite list_lookup_total_insert_ne by lia.
    rewrite IH by lia.
    apply Hloc; [lia|]. intros k Hk.
    symmetry. apply list_lookup_total_insert_ne. lia.
Qed.

End FillLoop.

(** ** Message scheduler *)

Section Scheduler.

Context (config : Config).

Lemma wadd3 bits a b c d :
  wadd bits (wadd bits (wadd bits a b) c) d = wrap bits (a + b + c + d).
Proof.
  unfold wadd, wrap.
  by rewrite (Zplus_mod_idemp_l (a + b) c), (Zplus_mod_idemp_l (a + b + c) d).
Qed.

Lemma staging_step_eq w i :
  staging_step config w i =
  <[i := wrap (word_bits config)
           (w !!! (i - 16) + schedule_s0 config (w !!! (i - 15)) +
            w !!! (i - 7) + schedule_s1 config (w !!! (i - 2)))]> w.
Proof. unfold staging_step. by rewrite wadd3. Qed.

Lemma length_build_staging chunk :
  length (build_staging config chunk) = staging_size config.
Proof.
  unfold build_staging.
  rewrite (length_fill _ _ (staging_step_eq)).
  rewrite (length_fill (λ _ i, _) (staging_load config chunk)) by done.
  apply length_replicate.
Qed.

(** C5. For a full block [chunk], [build_staging] returns [staging_size]
    words; the first [first_part_size] are the consecutive [word_size]-byte
    windows of the block read big-endian, and every later word [w[i]] is
    [w[i-16] + s0 + w[i-7] + s1] modulo [2 ^ word_bits], with [s0] and [s1]
    the rotate/shift mixes of [w[i-15]] and [w[i-2]] under the staging
    constants.  The source indexes [w[i-16]], so the first part has at least
    16 words, and it fits in the schedule. *)
Theorem build_staging_schedule (chunk : list byte) :
  16 ≤ first_part_size config ≤ staging_size config →
  length chunk = block_size_bytes config →
  let w := build_staging config chunk in
  length w = staging_size config ∧
  (∀ i, i < first_part_size config →
     w !!! i = be_value (take (word_size config) (drop (i * word_size config) chunk))) ∧
  (∀ i, first_part_size config ≤ i < staging_size config →
     w !!! i =
       ((w !!! (i - 16)%nat + schedule_s0 config (w !!! (i - 15)%nat) +
         w !!! (i - 7)%nat + schedule_s1 config (w !!! (i - 2)%nat))
        mod 2 ^ Z.of_nat (word_bits config))%Z).
Proof.
  intros [H16 Hss] Hlen w. split; [apply length_build_staging|].
  assert (0 < word_size config) as Hws.
  { destruct (word_size config) eqn:E; [|lia].
    unfold first_part_size in H16. rewrite E in H16. simpl in H16. lia. }
  split.
  - intros i Hi. unfold w, build_staging.
    rewrite (fill_outside _ _ staging_step_eq) by lia.
    rewrite (fill_inside (λ _ i, cast_from_bytes (word_size config)
               (take (word_size config) (drop (i * word_size config) chunk)))
             (staging_load config chunk)); [| done | | done | lia].
    + set (win := take _ _).
      assert (length win = word_size config) as Hwin.
      { unfold win. rewrite length_take, length_drop, Hlen.
        unfold first_part_size in Hi.
        pose proof (Nat.Div0.mul_div_le (block_size_bytes config) (word_size config)).
        nia. }
      rewrite <- Hwin at 1. apply cast_from_bytes_be_value.
    + rewrite length_replicate. lia.
  - intros i Hi. unfold w, build_staging.
    set (w1 := foldl (staging_load config chunk) _ _).
    assert (length w1 = staging_size config) as Hw1.
    { unfold w1. rewrite (length_fill (λ _ i, _) (staging_load config chunk)) by done.
      apply length_replicate. }
    rewrite (fill_inside _ _ staging_step_eq) at 1.
    + done.
    + lia.
    + intros j u v Hj Huv.
      rewrite !Huv by lia. done.
    + lia.
Qed.

End Scheduler.

(** ** Compression *)

Section Compression.

Context (config : Config).

Lemma wadd4 bits a b c d e :
  wadd bits (wadd bits (wadd bits (wadd bits a b) c) d) e =
  wrap bits (a + b + c + d + e).
Proof.
  unfold wadd, wrap.
  by rewrite (Zplus_mod_idemp_l (a + b) c), (Zplus_mod_idemp_l (a + b + c) d),
    (Zplus_mod_idemp_l (a + b + c + d) e).
Qed.

(** The eight assignments done one after the other on the array have the
    effect of the simultaneous assignment. *)
Lemma round_body_spec w v i :
  round_body config w (working_list v) i = working_list (round_spec config w v i).
Proof.
  destruct v as [[[[[[[a b] c] d] e] f] g] h].
  unfold round_body, round_spec, working_list.
  cbn [lookup_total list_lookup_total insert list_insert].
  by rewrite (wadd4 _ h _ _ _ (w !!! i)).
Qed.

Lemma foldl_round_body w v l :
  foldl (round_body config w) (working_list v) l =
  working_list (foldl (round_spec config w) v l).
Proof.
  revert v. induction l as [|i l IH]; intros v; [done|].
  simpl. by rewrite round_body_spec, IH.
Qed.

(** C6. For every schedule [w] and every state of eight words, [rounds]
    runs [rounds_number] times the simultaneous update
    [h,g,f,e,d,c,b,a = g,f,e,(d+temp1),c,b,a,(temp1+temp2)], every addition
    reduced modulo [2 ^ word_bits], and then stores [state[j] + working[j]]
    (reduced the same way) into each of the eight state words. *)
Theorem rounds_feed_forward (w : list Z) (state : working) :
  rounds config w (working_list state) = rounds_spec config w state.
Proof.
  unfold rounds, rounds_spec. rewrite foldl_round_body.
  destruct (foldl _ state _) as [[[[[[[a' b'] c'] d'] e'] f'] g'] h'].
  destruct state as [[[[[[[a b] c] d] e] f] g] h].
  reflexivity.
Qed.

Lemma add_back_eq (wvar st : list Z) i :
  add_back config wvar st i =
  <[i := wadd (word_bits config) (st !!! i) (wvar !!! i)]> st.
Proof. done. Qed.

Lemma length_rounds w state : length (rounds config w state) = length state.
Proof. unfold rounds. by rewrite (length_fill _ _ (add_back_eq _)). Qed.

End Compression.

(** ** Buffer accumulator *)

Section Accumulator.

Context (config : Config).

Local Abbreviation B := (block_size_bytes config).
Local Abbreviation loop := (update_to_buffer_and_process config).

Lemma loop_partial fuel h inp :
  length inp < B - block_used h →
  loop (S fuel) h inp = Some (buffer_bytes config h inp).
Proof.
  intros Hlt. simpl.
  rewrite decide_True by lia.
  rewrite Nat.min_l, take_ge by lia.
  by rewrite decide_True by lia.
Qed.

Lemma loop_flush fuel h inp :
  block_used h ≤ B → B - block_used h ≤ length inp →
  loop (S fuel) h inp =
  loop fuel (flush_block config h inp) (drop (B - block_used h) inp).
Proof.
  intros Hle Hge. simpl.
  rewrite decide_True by lia.
  rewrite Nat.min_r by lia.
  rewrite length_take_le by lia.
  by rewrite decide_False by lia.
Qed.

Lemma buffer_bytes_ok h inp :
  hasher_ok config h → length inp < B - block_used h →
  hasher_ok config (buffer_bytes config h inp).
Proof.
  intros (Hlen & Hused & Htot) Hlt. repeat split; simpl.
  - by rewrite length_inserts.
  - lia.
  - apply wrap_range.
  - apply wrap_range.
Qed.

Lemma flush_block_ok h inp :
  0 < B → hasher_ok config h → hasher_ok config (flush_block config h inp).
Proof.
  intros Hpos (Hlen & Hused & Htot). repeat split; simpl.
  - by rewrite length_inserts.
  - done.
  - apply wrap_range.
  - apply wrap_range.
Qed.

(** The loop terminates: one unit of fuel per byte of input, plus one, is
    enough, and the result satisfies the invariant. *)
Lemma loop_total fuel h inp :
  hasher_ok config h → length inp < fuel →
  ∃ h', loop fuel h inp = Some h' ∧ hasher_ok config h' ∧
        total_length h' =
          wrap (length_bits config) (total_length h + Z.of_nat (length inp)).
Proof.
  revert h inp. induction fuel as [|fuel IH]; intros h inp Hok Hfuel; [lia|].
  pose proof Hok as (Hlen & Hused & Htot).
  destruct (decide (length inp < B - block_used h)) as [Hlt|Hge].
  - exists (buffer_bytes config h inp). rewrite loop_partial by done.
    split; [done|]. split; [by apply buffer_bytes_ok | done].
  - rewrite loop_flush by lia.
    destruct (IH (flush_block config h inp) (drop (B - block_used h) inp))
      as (h' & Hrun & Hok' & Htot').
    + apply flush_block_ok; [lia | done].
    + rewrite length_drop. lia.
    + exists h'. split; [done|]. split; [done|].
      rewrite Htot'. simpl. rewrite length_drop.
      rewrite wrap_add_l. f_equal. lia.
Qed.

Lemma loop_fuel_mono fuel fuel' h inp r :
  loop fuel h inp = Some r → fuel ≤ fuel' → loop fuel' h inp = Some r.
Proof.
  revert fuel' h inp. induction fuel as [|fuel IH]; intros fuel' h inp Hrun Hle;
    [done|].
  destruct fuel' as [|fuel']; [lia|].
  simpl in *. repeat case_decide; try done.
  apply IH; [done | lia].
Qed.

(** The result does not depend on the fuel, once there is enough. *)
Lemma loop_fuel_enough fuel fuel' h inp r :
  hasher_ok config h → loop fuel h inp = Some r → length inp < fuel' →
  loop fuel' h inp = Some r.
Proof.
  intros Hok Hrun Hfuel.
  destruct (loop_total fuel' h inp Hok Hfuel) as (r' & Hrun' & _).
  destruct (Nat.le_ge_cases fuel fuel') as [Hle|Hle].
  - by apply (loop_fuel_mono fuel).
  - pose proof (loop_fuel_mono _ fuel _ _ _ Hrun' Hle). congruence.
Qed.

Lemma buffer_bytes_app h a b :
  buffer_bytes config (buffer_bytes config h a) b = buffer_bytes config h (a ++ b).
Proof.
  unfold buffer_bytes. simpl. f_equal.
  - rewrite length_app, wrap_add_l. f_equal. lia.
  - by rewrite list_inserts_app_l, (Nat.add_comm (length a)).
  - rewrite length_app. lia.
Qed.

Lemma flush_block_app_l h a b :
  B - block_used h ≤ length a →
  flush_block config h (a ++ b) = flush_block config h a.
Proof.
  intros Hle. unfold flush_block. by rewrite take_app_le.
Qed.

Lemma flush_block_app_r h a b :
  length a < B - block_used h →
  flush_block config (buffer_bytes config h a) b = flush_block config h (a ++ b).
Proof.
  intros Hlt. unfold flush_block, buffer_bytes. simpl.
  rewrite take_app_ge by lia.
  rewrite list_inserts_app_l, (Nat.add_comm (length a)).
  replace (B - (block_used h + length a)) with (B - block_used h - length a) by lia.
  f_equal. rewrite wrap_add_l. f_equal. lia.
Qed.

(** Running the loop on [a] and then on [b] is running it on [a ++ b]. *)
Lemma loop_app f1 f2 f3 h a b h1 h2 :
  0 < B → hasher_ok config h →
  loop f1 h a = Some h1 → loop f2 h1 b = Some h2 →
  length (a ++ b) < f3 →
  loop f3 h (a ++ b) = Some h2.
Proof.
  intros Hpos. revert f3 h a.
  induction f1 as [|f1 IH]; intros f3 h a Hok Ha Hb Hfuel; [done|].
  pose proof Hok as (Hlen & Hused & Htot).
  destruct f3 as [|f3]; [lia|].
  rewrite length_app in Hfuel.
  destruct (decide (length a < B - block_used h)) as [Hlt|Hge].
  - rewrite loop_partial in Ha by done. injection Ha as <-.
    destruct f2 as [|f2]; [done|].
    assert (hasher_ok config (buffer_bytes config h a)) as Hok1
      by by apply buffer_bytes_ok.
    destruct (decide (length b < B - block_used (buffer_bytes config h a)))
      as [Hlt'|Hge'].
    + rewrite loop_partial in Hb by done. injection Hb as <-.
      rewrite loop_partial by (simpl in Hlt'; rewrite length_app; lia).
      by rewrite buffer_bytes_app.
    + rewrite loop_flush in Hb by (simpl in *; lia).
      rewrite loop_flush by (rewrite ?length_app; simpl in *; lia).
      rewrite flush_block_app_r in Hb by done.
      simpl in Hb, Hge'.
      rewrite drop_app_ge by lia.
      replace (B - block_used h - length a) with (B - (block_used h + length a))
        by lia.
      eapply loop_fuel_enough; [| exact Hb |].
      * apply flush_block_ok; [done|done].
      * rewrite length_drop. lia.
  - rewrite loop_flush in Ha by lia.
    rewrite loop_flush by (rewrite ?length_app; lia).
    rewrite flush_block_app_l by lia.
    rewrite drop_app_le by lia.
    eapply IH; [| exact Ha | exact Hb |].
    + by apply flush_block_ok.
    + rewrite length_app, length_drop. lia.
Qed.

End Accumulator.

(** ** Finalizer *)

Lemma list_inserts_take_drop {A} (i : nat) (k l : list A) :
  i + length k ≤ length l →
  list_inserts i k l = take i l ++ k ++ drop (i + length k) l.
Proof.
  intros Hle.
  rewrite <- (take_drop i l) at 1.
  assert (length (take i l) = i) as Hi by (rewrite length_take; lia).
  rewrite <- (Nat.add_0_r i) at 1. rewrite <- Hi at 1.
  rewrite list_inserts_app_r. f_equal.
  rewrite <- (take_drop (length k) (drop i l)) at 1.
  rewrite list_inserts_0_r by (rewrite length_take, length_drop; lia).
  by rewrite drop_drop.
Qed.

Lemma be_bytes_pad k n v :
  (0 ≤ v < 2 ^ (8 * Z.of_nat n))%Z →
  be_bytes (k + n) v = replicate k x00 ++ be_bytes n v.
Proof.
  intros Hv. induction k as [|k IH]; [done|].
  simpl. rewrite IH. f_equal.
  rewrite Z.shiftr_div_pow2 by lia.
  rewrite Z.div_small; [done|].
  split; [lia|]. eapply Z.lt_le_trans; [apply Hv|].
  apply Z.pow_le_mono_r; lia.
Qed.

Section Finalizer.

Context (config : Config).

(** The terminator write followed by [std::fill] gives the padded block. *)
Lemma padded_block_eq h :
  block_used h < length (block h) →
  list_inserts (S (block_used h))
    (replicate (length (block h) - S (block_used h)) x00)
    (<[block_used h := x80]> (block h)) = padded_block h.
Proof.
  intros Hlt. unfold padded_block.
  rewrite list_inserts_take_drop
    by (rewrite length_replicate, length_insert; lia).
  rewrite (take_S_r _ _ x80) by (by apply list_lookup_insert_eq).
  rewrite take_insert_ge by done.
  rewrite drop_ge by (rewrite length_replicate, length_insert; lia).
  rewrite <- !app_assoc, app_nil_r. simpl.
  do 3 f_equal. lia.
Qed.

Lemma length_padded_block h :
  block_used h < length (block h) → length (padded_block h) = length (block h).
Proof.
  intros Hlt. unfold padded_block.
  rewrite !length_app, length_take, length_replicate. simpl. lia.
Qed.

(** Writing the bit count through the [last<sizeof(length_t)>] window. *)
Lemma with_bit_count_eq h blk :
  length_size config ≤ length blk →
  list_inserts (length blk - length_size config)
    (unwrap_bigendian_number (length_size config)
       (wrap (length_bits config) (total_length h * 8))) blk =
  with_bit_count config h blk.
Proof.
  intros Hle. unfold with_bit_count, bit_count.
  rewrite unwrap_bigendian_number_be_bytes.
  rewrite list_inserts_take_drop by (rewrite length_be_bytes; lia).
  rewrite drop_ge by (rewrite length_be_bytes; lia).
  by rewrite app_nil_r.
Qed.

(** [finalize_buffer] in closed form. *)
Lemma finalize_buffer_eq h :
  block_used h < length (block h) → length_size config ≤ length (block h) →
  finalize_buffer config h =
  let n := length (block h) in
  let extra := bool_decide (n - block_used h < 1 + length_size_bits config / 8) in
  let blk := with_bit_count config h
               (if extra then replicate n x00 else padded_block h) in
  Some {| hash := compress config
                    (if extra then compress config (hash h) (padded_block h)
                     else hash h) blk;
          total_length := total_length h;
          block := blk;
          block_used := block_used h |}.
Proof.
  intros Hlt Hls. unfold finalize_buffer.
  rewrite decide_True by done.
  rewrite padded_block_eq by done.
  cbv zeta. rewrite length_padded_block by done.
  case_bool_decide as Hfree.
  - rewrite decide_True by done.
    rewrite with_bit_count_eq by (rewrite length_replicate; lia).
    done.
  - rewrite decide_False by done.
    rewrite with_bit_count_eq by (rewrite length_padded_block; lia).
    done.
Qed.

(** C3. [finalize_buffer] puts [0x80] at offset [block_used] and zeros
    after it ([padded_block]).  When the free space
    [block.size() - block_used] is below [1 + length_size_bits/8], that
    padded block is compressed and the bit count goes into a fresh all-zero
    block; otherwise the bit count goes into the padded block itself and
    only one compression is done.  A free space of exactly
    [length_size_bits/8] bytes is in the first case. *)
Theorem finalize_buffer_padding (h : internal_hasher) :
  length (block h) = block_size_bytes config →
  block_used h < block_size_bytes config →
  length_size config ≤ block_size_bytes config →
  let free := block_size_bytes config - block_used h in
  let L := length_size_bits config / 8 in
  ∃ h', finalize_buffer config h = Some h' ∧
    padded_block h !! block_used h = Some x80 ∧
    (∀ i, i < block_used h → padded_block h !! i = block h !! i) ∧
    (∀ i, block_used h < i < block_size_bytes config →
       padded_block h !! i = Some x00) ∧
    (free < 1 + L →
       block h' = with_bit_count config h (replicate (block_size_bytes config) x00) ∧
       hash h' = compress config (compress config (hash h) (padded_block h)) (block h')) ∧
    (¬ free < 1 + L →
       block h' = with_bit_count config h (padded_block h) ∧
       hash h' = compress config (hash h) (block h')) ∧
    (free = L →
       hash h' = compress config (compress config (hash h) (padded_block h)) (block h')).
Proof.
  intros Hlen Hlt Hls free L.
  rewrite finalize_buffer_eq by (rewrite Hlen; done).
  cbv zeta. rewrite Hlen. fold free L.
  eexists. split; [done|]. cbn [hash block].
  assert (length (take (block_used h) (block h)) = block_used h) as Htake
    by (rewrite length_take; lia).
  split; [|split; [|split; [|split; [|split]]]].
  - unfold padded_block. simpl. by rewrite list_lookup_middle.
  - intros i Hi. unfold padded_block.
    rewrite lookup_app_l by lia. by apply lookup_take_lt.
  - intros i Hi. unfold padded_block.
    rewrite lookup_app_r by lia. rewrite Htake.
    destruct (i - block_used h) as [|j] eqn:E; [lia|]. simpl.
    apply lookup_replicate_2. lia.
  - intros Hfree. by rewrite (bool_decide_eq_true_2 _ Hfree).
  - intros Hfree. by rewrite (bool_decide_eq_false_2 _ Hfree).
  - intros Hfree. rewrite bool_decide_eq_true_2 by (fold free; lia). done.
Qed.

(** The last [L] bytes of a block that is zero from offset [n - L] on, after
    the bit count has been written into its last [sizeof(length_type)]
    bytes, are the bit count in [L] big-endian bytes. *)
Lemma with_bit_count_tail h blk n L :
  length blk = n → length_size config ≤ L → L ≤ n →
  drop (n - L) blk = replicate L x00 →
  (0 ≤ total_length h)%Z →
  (total_length h * 8 < 2 ^ Z.of_nat (length_bits config))%Z →
  drop (n - L) (with_bit_count config h blk) = be_bytes L (total_length h * 8).
Proof.
  intros <- Hls HL Hzero Hnn Hfit. unfold with_bit_count, bit_count.
  rewrite wrap_small by lia.
  rewrite drop_app_le by (rewrite length_take; lia).
  replace (take (length blk - length_size config) blk)
    with (take (length blk - L) blk ++
          take (L - length_size config) (drop (length blk - L) blk)).
  2:{ rewrite take_take_drop. f_equal. lia. }
  rewrite drop_app_length' by (rewrite length_take; lia).
  rewrite Hzero, take_replicate, Nat.min_l by lia.
  replace L with ((L - length_size config) + length_size config) at 2 by lia.
  rewrite be_bytes_pad; [done|].
  unfold length_bits in Hfit. split; [lia|].
  by replace (8 * Z.of_nat (length_size config))%Z
    with (Z.of_nat (length_size config * 8)) by lia.
Qed.

Lemma padded_block_tail h L :
  block_used h + 1 + L ≤ length (block h) →
  drop (length (block h) - L) (padded_block h) = replicate L x00.
Proof.
  intros Hfree. unfold padded_block.
  rewrite app_assoc.
  rewrite drop_app_ge by (rewrite length_app, length_take; simpl; lia).
  rewrite length_app, length_take, drop_replicate. simpl.
  f_equal. lia.
Qed.

(** C4. After [finalize_buffer], the last [length_size_bits/8] bytes of the
    block that was compressed last are [total_length * 8] written
    big-endian on [length_size_bits] bits, provided [total_length * 8] fits
    [length_type]; [sizeof(length_type)] may be smaller than
    [length_size_bits/8]. *)
Theorem finalize_buffer_bit_count (h : internal_hasher) :
  let n := block_size_bytes config in
  let L := length_size_bits config / 8 in
  length (block h) = n →
  block_used h < n → length_size config ≤ L → L ≤ n →
  (0 ≤ total_length h)%Z →
  (total_length h * 8 < 2 ^ Z.of_nat (length_bits config))%Z →
  ∃ h' hsh, finalize_buffer config h = Some h' ∧
    hash h' = compress config hsh (block h') ∧
    drop (n - L) (block h') = be_bytes L (total_length h * 8) ∧
    be_value (drop (n - L) (block h')) = (total_length h * 8)%Z.
Proof.
  intros n L Hlen Hlt Hls HL Hnn Hfit.
  rewrite finalize_buffer_eq by (rewrite Hlen; fold n; lia).
  cbv zeta. rewrite Hlen. fold n L.
  eexists _, _. split; [done|]. cbn [hash block]. split; [done|].
  assert (drop (n - L)
            (with_bit_count config h
               (if bool_decide (n - block_used h < 1 + L)
                then replicate n x00 else padded_block h)) =
          be_bytes L (total_length h * 8)) as Htail.
  { case_bool_decide as Hfree.
    - apply with_bit_count_tail; try done.
      + apply length_replicate.
      + rewrite drop_replicate. f_equal. lia.
    - apply with_bit_count_tail; try done.
      + rewrite length_padded_block; [done | by rewrite Hlen].
      + rewrite <- Hlen. apply padded_block_tail. rewrite Hlen. fold n. lia. }
  split; [done|].
  rewrite Htail, be_value_be_bytes. apply Z.mod_small.
  split; [lia|]. eapply Z.lt_le_trans; [apply Hfit|].
  apply Z.pow_le_mono_r; [lia|]. unfold length_bits. lia.
Qed.

(** [finalize_buffer] changes only [hash] and [block]: [total_length] and
    [block_used] are what they were, and the call returns whenever the
    block is not full. *)
Lemma finalize_buffer_frame h :
  block_used h < length (block h) →
  ∃ h', finalize_buffer config h = Some h' ∧
        total_length h' = total_length h ∧ block_used h' = block_used h.
Proof.
  intros Hlt. unfold finalize_buffer. rewrite decide_True by done.
  cbv zeta. case_decide; eexists; (split; [reflexivity|]); done.
Qed.

End Finalizer.

(** ** The public hasher *)

Section Hasher.

Context (config : Config).

Local Abbreviation B := (block_size_bytes config).

Lemma new_hasher_ok : 0 < B → hasher_ok config (new_hasher config).
Proof.
  intros Hpos. repeat split; simpl; [apply length_replicate | done | done |].
  apply Z.pow_pos_nonneg; lia.
Qed.

Lemma hasher_ok_pos h : hasher_ok config h → 0 < B.
Proof. intros (_ & Hused & _). lia. Qed.

(** [update] returns, keeps the invariant and counts its input. *)
Lemma update_ok h input :
  hasher_ok config h →
  ∃ h', update config h input = Some h' ∧ hasher_ok config h' ∧
        total_length h' =
          wrap (length_bits config) (total_length h + Z.of_nat (length input)).
Proof. intros Hok. apply loop_total; [done | lia]. Qed.

Lemma update_app h a b h1 h2 :
  hasher_ok config h →
  update config h a = Some h1 → update config h1 b = Some h2 →
  update config h (a ++ b) = Some h2.
Proof.
  intros Hok Ha Hb. unfold update in *.
  eapply loop_app; eauto using hasher_ok_pos. lia.
Qed.

Lemma update_nil h : hasher_ok config h → update config h [] = Some h.
Proof.
  intros (Hlen & Hused & Htot). unfold update. cbn [length Nat.add].
  rewrite loop_partial by (simpl; lia). f_equal.
  destruct h as [hsh tot blk used]. unfold buffer_bytes. simpl in *.
  f_equal; [|lia]. rewrite Z.add_0_r. by apply wrap_small.
Qed.

Lemma updates_cons h input inputs :
  updates config h (input :: inputs) =
  update config h input ≫= λ h1, updates config h1 inputs.
Proof.
  unfold updates. simpl. destruct (update config h input) as [h1|]; [done|].
  simpl. induction inputs as [|x xs IH]; [done|]. by simpl.
Qed.

Lemma input_bytes_cons (x : list byte) xs :
  input_bytes (x :: xs) = length x + input_bytes xs.
Proof. done. Qed.

Lemma updates_ok h inputs :
  hasher_ok config h →
  ∃ h', updates config h inputs = Some h' ∧ hasher_ok config h' ∧
        total_length h' =
          wrap (length_bits config)
            (total_length h + Z.of_nat (input_bytes inputs)).
Proof.
  revert h. induction inputs as [|x xs IH]; intros h Hok.
  - exists h. split; [done|]. split; [done|].
    unfold input_bytes. simpl. rewrite Z.add_0_r.
    symmetry. apply wrap_small, Hok.
  - destruct (update_ok h x Hok) as (h1 & Hx & Hok1 & Htot1).
    destruct (IH h1 Hok1) as (h' & Hxs & Hok' & Htot').
    exists h'. rewrite updates_cons, Hx. simpl.
    split; [done|]. split; [done|].
    rewrite Htot', Htot1, wrap_add_l, input_bytes_cons.
    f_equal. lia.
Qed.

(** A sequence of [update] calls is one [update] call on the
    concatenation. *)
Lemma updates_concat h inputs :
  hasher_ok config h →
  updates config h inputs = update config h (concat inputs).
Proof.
  revert h. induction inputs as [|x xs IH]; intros h Hok.
  - simpl. by rewrite update_nil.
  - destruct (update_ok h x Hok) as (h1 & Hx & Hok1 & _).
    rewrite updates_cons, Hx. simpl. rewrite (IH h1 Hok1).
    destruct (update_ok h1 (concat xs) Hok1) as (h2 & Hxs & _).
    rewrite Hxs. symmetry. by eapply update_app.
Qed.

Lemma reachable_ok h : 0 < B → reachable config h → hasher_ok config h.
Proof.
  intros Hpos. induction 1 as [|h input h' _ IH Hupd].
  - by apply new_hasher_ok.
  - destruct (update_ok h input IH) as (h'' & Hupd' & Hok & _). congruence.
Qed.

Lemma final_value_total h :
  hasher_ok config h → is_Some (final_value config h).
Proof.
  intros (Hlen & Hused & _). unfold final_value, final.
  destruct (finalize_buffer_frame config h) as (h' & -> & _); [lia|].
  by eexists.
Qed.

(** C1. Chunking independence: however a byte sequence [S] is cut into
    consecutive pieces given to successive [update] calls on a new hasher,
    [final] returns a digest, and it is the digest obtained when [S] is
    given in a single [update] call. *)
Theorem chunking_independence (S : list byte) (chunks : list (list byte)) :
  0 < B → concat chunks = S →
  is_Some (digest_of config [S]) ∧
  digest_of config chunks = digest_of config [S].
Proof.
  intros Hpos <-. unfold digest_of.
  pose proof (new_hasher_ok Hpos) as Hnew.
  assert (updates config (new_hasher config) [concat chunks] =
          updates config (new_hasher config) chunks) as ->.
  { rewrite !updates_concat by done. simpl. by rewrite app_nil_r. }
  split; [|done].
  destruct (updates_ok (new_hasher config) chunks Hnew) as (h & -> & Hok & _).
  simpl. destruct (final_value_total h Hok) as [r ->]. by eexists.
Qed.

(** C2. After any sequence of [update] calls on a new hasher,
    [total_length], which is what [size()] returns, is the sum of the
    lengths of the inputs, wherever the block boundaries fall.  The counter
    is a [length_type]: it holds the sum reduced to that type, which is the
    sum itself whenever [length_type] can hold it, as the data model
    asks. *)
Theorem total_length_counts_input (inputs : list (list byte)) :
  0 < B →
  ∃ h, updates config (new_hasher config) inputs = Some h ∧
       size h = total_length h ∧
       total_length h =
         wrap (length_bits config) (Z.of_nat (input_bytes inputs)) ∧
       ((Z.of_nat (input_bytes inputs) < 2 ^ Z.of_nat (length_bits config))%Z →
        total_length h = Z.of_nat (input_bytes inputs)).
Proof.
  intros Hpos.
  destruct (updates_ok (new_hasher config) inputs (new_hasher_ok Hpos))
    as (h & Hrun & _ & Htot).
  simpl in Htot.
  exists h. split; [done|]. split; [done|]. split; [done|].
  intros Hfit. rewrite Htot. apply wrap_small. lia.
Qed.

(** C8. [block_used < block_size_bytes] holds for a new hasher and for
    every state returned by [update]: from any reachable state, [update]
    returns a state with [block_used] below the block size, and an input
    that exactly fills the block gets the block compressed and leaves
    [block_used] at zero. *)
Theorem block_used_invariant (h : internal_hasher) :
  0 < B → reachable config h →
  block_used (new_hasher config) < B ∧
  block_used h < B ∧
  ∀ input, ∃ h',
    update config h input = Some h' ∧ block_used h' < B ∧
    (length input = B - block_used h →
       block_used h' = 0 ∧
       hash h' = compress config (hash h)
                   (list_inserts (block_used h) input (block h))).
Proof.
  intros Hpos Hreach.
  pose proof (reachable_ok h Hpos Hreach) as Hok.
  split; [done|]. split; [apply Hok|].
  intros input.
  destruct (update_ok h input Hok) as (h' & Hupd & Hok' & _).
  exists h'. split; [done|]. split; [apply Hok'|].
  intros Hfill. unfold update in Hupd.
  replace (length input + 2) with (S (S (length input))) in Hupd by lia.
  destruct Hok as (Hlen & Hused & _).
  rewrite loop_flush in Hupd by lia.
  rewrite <- Hfill, drop_all in Hupd.
  rewrite loop_partial in Hupd by (simpl; lia).
  injection Hupd as <-. simpl.
  split; [done|]. by rewrite take_ge by lia.
Qed.

(** C9. For a character array [lit] whose last element is the terminating
    NUL, [update(lit)] is [update] on the bytes before the terminator: the
    NUL is not hashed and [total_length] grows by [N - 1], [N] being the
    length of the array (the count staying within [length_type]). *)
Theorem update_literal_drops_terminator (h : internal_hasher) (lit s : list byte) :
  hasher_ok config h → lit = s ++ [x00] →
  (total_length h + Z.of_nat (length lit - 1) < 2 ^ Z.of_nat (length_bits config))%Z →
  ∃ h', update_literal config h lit = Some h' ∧
        update config h s = Some h' ∧
        total_length h' = (total_length h + Z.of_nat (length lit - 1))%Z.
Proof.
  intros Hok -> Hfit. unfold update_literal.
  rewrite length_app in *. simpl in *.
  replace (length s + 1 - 1) with (length s) in * by lia.
  rewrite take_app_length.
  destruct (update_ok h s Hok) as (h' & Hupd & _ & Htot).
  exists h'. split; [done|]. split; [done|].
  rewrite Htot. apply wrap_small. destruct Hok as (_ & _ & ?). lia.
Qed.

(** C10. [final] leaves the length counter as it was: after any sequence
    of [update] calls on a new hasher, [final] returns, [total_length] and
    [block_used] are unchanged by it, and [size()] called afterwards is
    still the number of input bytes (padding and length suffix are not
    counted). *)
Theorem final_keeps_total_length (inputs : list (list byte)) :
  0 < B →
  (Z.of_nat (input_bytes inputs) < 2 ^ Z.of_nat (length_bits config))%Z →
  ∃ h h' digest,
    updates config (new_hasher config) inputs = Some h ∧
    finalize_buffer config h = Some h' ∧
    final_value config h = Some (h', digest) ∧
    total_length h' = total_length h ∧
    block_used h' = block_used h ∧
    size h' = Z.of_nat (input_bytes inputs).
Proof.
  intros Hpos Hfit.
  destruct (updates_ok (new_hasher config) inputs (new_hasher_ok Hpos))
    as (h & Hrun & Hok & Htot).
  destruct (finalize_buffer_frame config h) as (h' & Hfin & Htot' & Hused').
  { destruct Hok as (? & ? & _). lia. }
  exists h, h', (write_result_into config h' (replicate (digest_length config) x00)).
  split; [done|]. split; [done|].
  split; [unfold final_value, final; by rewrite Hfin|].
  split; [done|]. split; [done|].
  unfold size. rewrite Htot', Htot. simpl. apply wrap_small. lia.
Qed.

End Hasher.

(** * The engine on SHA-256 and SHA-512 *)

(** ** Known answers *)

Example sha256_tables :
  take 2 (initial_values sha256_config) = [0x6a09e667; 0xbb67ae85]%Z ∧
  take 2 (constants sha256_config) = [0x428a2f98; 0x71374491]%Z ∧
  last (constants sha256_config) = Some 0xc67178f2%Z.
Proof. vm_compute. done. Qed.

Example sha512_tables :
  take 2 (initial_values sha512_config) =
    [0x6a09e667f3bcc908; 0xbb67ae8584caa73b]%Z ∧
  take 2 (constants sha512_config) =
    [0x428a2f98d728ae22; 0x7137449123ef65cd]%Z ∧
  last (constants sha512_config) = Some 0x6c44198c4a475817%Z.
Proof. vm_compute. done. Qed.

Example sha256_empty :
  be_value <$> digest_of sha256_config [] =
  Some 0xe3b0c44298fc1c149afbf4c8996fb92427ae41e4649b934ca495991b7852b855%Z.
Proof. vm_compute. reflexivity. Qed.

Example sha256_abc :
  be_value <$> digest_of sha256_config [[x61; x62; x63]] =
  Some 0xba7816bf8f01cfea414140de5dae2223b00361a396177a9cb410ff61f20015ad%Z.
Proof. vm_compute. reflexivity. Qed.

Example sha256_two_block_boundary :
  be_value <$> digest_of sha256_config [replicate 56 x61] =
  Some 0xb35439a4ac6f0948b6d6f9e3c6af0f5f590ce20f1bde7090ef7970686ec6738a%Z.
Proof. vm_compute. reflexivity. Qed.

Example sha512_empty :
  be_value <$> digest_of sha512_config [] =
  Some 0xcf83e1357eefb8bdf1542850d66d8007d620e4050b5715dc83f4a921d36ce9ce47d0d13c5d85f2b0ff8318d2877eec2f63b931bd47417a81a538327af927da3e%Z.
Proof. vm_compute. reflexivity. Qed.

Example sha512_abc :
  be_value <$> digest_of sha512_config [[x61; x62; x63]] =
  Some 0xddaf35a193617abacc417349ae20413112e6fa4e89a97ea20a9eeee64b55d39a2192992a274fc1a836ba3c23a3feebbd454d4423643ce80e2a9ac94fa54ca49f%Z.
Proof. vm_compute. reflexivity. Qed.

Example sha512_two_block_boundary :
  be_value <$> digest_of sha512_config [replicate 112 x61] =
  Some 0xc01d080efd492776a1c43bd23dd99d0a2e626d481e16782e75d54c2503b5dc32bd05f0f1ba33e568b88fd2d970929b719ecbb152f58f130a407c8830604b70ca%Z.
Proof. vm_compute. reflexivity. Qed.

Example sha256_after_56_reached :
  update sha256_config (new_hasher sha256_config) (replicate 56 x61) =
  Some sha256_after_56.
Proof. vm_compute. reflexivity. Qed.

Example sha512_after_abc_reached :
  update sha512_config (new_hasher sha512_config) [x61; x62; x63] =
  Some sha512_after_abc.
Proof. vm_compute. reflexivity. Qed.

(** ** The theorems at concrete inputs *)

Lemma chunking_independence_witness :
  is_Some (digest_of sha256_config [[x61; x62; x63]]) ∧
  digest_of sha256_config [[x61]; []; [x62; x63]] =
  digest_of sha256_config [[x61; x62; x63]].
Proof.
  apply (chunking_independence sha256_config [x61; x62; x63]
           [[x61]; []; [x62; x63]]).
  - vm_compute. lia.
  - reflexivity.
Defined.

Lemma total_length_counts_input_witness :
  ∃ h, updates sha256_config (new_hasher sha256_config)
         [replicate 60 x61; replicate 70 x62] = Some h ∧
       size h = 130%Z.
Proof.
  destruct (total_length_counts_input sha256_config
              [replicate 60 x61; replicate 70 x62])
    as (h & Hrun & Hsize & _ & Hsum).
  - vm_compute. lia.
  - exists h. split; [exact Hrun|].
    rewrite Hsize. apply Hsum. vm_compute. reflexivity.
Defined.

Lemma finalize_buffer_padding_witness :
  ∃ h', finalize_buffer sha256_config sha256_after_56 = Some h' ∧
    hash h' =
      compress sha256_config
        (compress sha256_config (hash sha256_after_56)
           (replicate 56 x61 ++ [x80] ++ replicate 7 x00))
        (block h').
Proof.
  destruct (finalize_buffer_padding sha256_config sha256_after_56)
    as (h' & Hfin & _ & _ & _ & _ & _ & Hexact).
  - reflexivity.
  - vm_compute. lia.
  - vm_compute. lia.
  - exists h'. split; [exact Hfin|]. apply Hexact. reflexivity.
Defined.

Lemma finalize_buffer_bit_count_witness :
  ∃ h' hsh, finalize_buffer sha512_config sha512_after_abc = Some h' ∧
    hash h' = compress sha512_config hsh (block h') ∧
    drop 112 (block h') = replicate 15 x00 ++ [x18] ∧
    be_value (drop 112 (block h')) = 24%Z.
Proof.
  apply (finalize_buffer_bit_count sha512_config sha512_after_abc).
  - reflexivity.
  - vm_compute. lia.
  - vm_compute. lia.
  - vm_compute. lia.
  - simpl. lia.
  - vm_compute. reflexivity.
Defined.

Lemma build_staging_schedule_witness :
  let w := build_staging sha256_config (replicate 64 x61) in
  length w = 64 ∧ w !!! 0 = 0x61616161%Z ∧
  w !!! 16 =
    ((w !!! 0%nat + schedule_s0 sha256_config (w !!! 1%nat) +
      w !!! 9%nat + schedule_s1 sha256_config (w !!! 14%nat)) mod 2 ^ 32)%Z.
Proof.
  destruct (build_staging_schedule sha256_config (replicate 64 x61))
    as (Hlen & Hfirst & Hrest).
  - vm_compute. lia.
  - reflexivity.
  - split; [exact Hlen|]. split.
    + rewrite (Hfirst 0) by (vm_compute; lia). reflexivity.
    + apply (Hrest 16). vm_compute. lia.
Defined.

Lemma codec_round_trip_witness :
  cast_from_bytes 4 (unwrap_bigendian_number 4 0xffffffff) = 0xffffffff%Z ∧
  cast_from_bytes 8 (unwrap_bigendian_number 8 0) = 0%Z.
Proof.
  split.
  - apply (codec_round_trip 4 0xffffffff). simpl. lia.
  - apply (codec_round_trip 8 0). simpl. lia.
Defined.

Lemma block_used_invariant_witness :
  block_used (new_hasher sha256_config) < 64 ∧
  block_used sha256_after_56 < 64 ∧
  ∀ input, ∃ h',
    update sha256_config sha256_after_56 input = Some h' ∧
    block_used h' < 64 ∧
    (length input = 8 →
       block_used h' = 0 ∧
       hash h' = compress sha256_config (hash sha256_after_56)
                   (list_inserts 56 input (block sha256_after_56))).
Proof.
  apply (block_used_invariant sha256_config sha256_after_56).
  - vm_compute. lia.
  - apply (reachable_update sha256_config (new_hasher sha256_config)
             (replicate 56 x61)).
    + apply reachable_new.
    + vm_compute. reflexivity.
Defined.

Lemma update_literal_drops_terminator_witness :
  ∃ h', update_literal sha256_config (new_hasher sha256_config)
          [x61; x62; x63; x00] = Some h' ∧
        update sha256_config (new_hasher sha256_config) [x61; x62; x63] = Some h' ∧
        total_length h' = 3%Z.
Proof.
  apply (update_literal_drops_terminator sha256_config
           (new_hasher sha256_config) [x61; x62; x63; x00] [x61; x62; x63]).
  - split; [reflexivity|]. split; [vm_compute; lia|].
    split; [simpl; lia | vm_compute; reflexivity].
  - reflexivity.
  - vm_compute. reflexivity.
Defined.

Lemma final_keeps_total_length_witness :
  ∃ h h' digest,
    updates sha256_config (new_hasher sha256_config)
      [replicate 60 x61; replicate 70 x62] = Some h ∧
    finalize_buffer sha256_config h = Some h' ∧
    final_value sha256_config h = Some (h', digest) ∧
    total_length h' = total_length h ∧
    block_used h' = block_used h ∧
    size h' = 130%Z.
Proof.
  apply (final_keeps_total_length sha256_config
           [replicate 60 x61; replicate 70 x62]).
  - vm_compute. lia.
  - vm_compute. reflexivity.
Defined.

(** * Further properties of the engine *)

(** ** Codec *)

Lemma byte_of_Z_mod (x y : Z) :
  (x mod 256 = y mod 256)%Z → byte_of_Z x = byte_of_Z y.
Proof. unfold byte_of_Z. by intros ->. Qed.

(** The encoder only looks at the bits of the window. *)
Lemma be_bytes_mod n m v :
  n ≤ m → be_bytes n (v mod 2 ^ (8 * Z.of_nat m)) = be_bytes n v.
Proof.
  induction n as [|n IH]; intros Hle; [done|].
  cbn [be_bytes]. rewrite IH by lia. f_equal.
  apply byte_of_Z_mod.
  change 256%Z with (2 ^ 8)%Z. rewrite <- !Z.land_ones by lia.
  Z.bitblast.
Qed.

Lemma be_bytes_be_value l : be_bytes (length l) (be_value l) = l.
Proof.
  induction l as [|b l IH]; [done|].
  pose proof (be_value_range l) as Hl. pose proof (byte_to_Z_range b) as Hb.
  simpl length. cbn [be_bytes be_value]. f_equal.
  - rewrite <- (byte_of_to_Z b) at 2. apply byte_of_Z_mod. f_equal.
    Z.bitblast. rewrite (testbit_above _ _ _ Hl) by lia. apply orb_false_r.
  - rewrite <- (be_bytes_mod (length l) (length l)) by done.
    replace (Z.lor _ _ mod _)%Z with (be_value l); [exact IH|].
    transitivity (be_value l mod 2 ^ (8 * Z.of_nat (length l)))%Z;
      [symmetry; by apply Z.mod_small|].
    rewrite <- !Z.land_ones by lia. Z.bitblast.
    by rewrite (Z.testbit_neg_r _ l0) by lia.
Qed.

(** X1. Encoding after decoding is the identity on byte windows: the two
    directions of the codec are exact inverses (with C7). *)
Theorem codec_encode_decode (l : list byte) :
  unwrap_bigendian_number (length l) (cast_from_bytes (length l) l) = l.
Proof.
  rewrite unwrap_bigendian_number_be_bytes, cast_from_bytes_be_value.
  apply be_bytes_be_value.
Qed.

(** X2. Decoding after encoding reduces the value to the window: whatever
    integer is assigned, the window holds it modulo [2 ^ (8 * size)], and
    the window has [size] bytes. *)
Theorem codec_decode_encode_wraps (size : nat) (v : Z) :
  length (unwrap_bigendian_number size v) = size ∧
  cast_from_bytes size (unwrap_bigendian_number size v) =
    (v mod 2 ^ (8 * Z.of_nat size))%Z.
Proof.
  split; [apply length_unwrap_bigendian_number|].
  rewrite unwrap_bigendian_number_be_bytes.
  rewrite <- (length_be_bytes size v) at 1.
  by rewrite cast_from_bytes_be_value, be_value_be_bytes.
Qed.

Lemma lor_range (k a b : Z) :
  (0 ≤ k)%Z → (0 ≤ a < 2 ^ k)%Z → (0 ≤ b < 2 ^ k)%Z →
  (0 ≤ Z.lor a b < 2 ^ k)%Z.
Proof.
  intros Hk Ha Hb.
  assert (0 ≤ Z.lor a b)%Z as Hnn by (apply Z.lor_nonneg; lia).
  split; [done|].
  rewrite <- (Z.mod_small a (2 ^ k)), <- (Z.mod_small b (2 ^ k)) by done.
  rewrite <- !Z.land_ones by done. rewrite <- Z.land_lor_distr_l.
  rewrite Z.land_ones by done. apply Z.mod_pos_bound. lia.
Qed.

Lemma cast_from_bytes_bounded (size : nat) (inp : list byte) :
  (0 ≤ cast_from_bytes size inp < 2 ^ Z.of_nat (size * 8))%Z.
Proof.
  unfold cast_from_bytes.
  generalize (seq 0 size) as idxs. intros idxs.
  induction idxs as [|Idx idxs IH]; cbn [fmap list_fmap foldr].
  - split; [lia|]. apply Z.pow_pos_nonneg; lia.
  - apply lor_range; [lia | apply wrap_range | exact IH].
Qed.

(** X3. The decoder returns a value of its type for every window: the
    result is at least 0 and below [2 ^ (8 * size)]. *)
Theorem cast_from_bytes_range (size : nat) (inp : list byte) :
  (0 ≤ cast_from_bytes size inp < 2 ^ Z.of_nat (size * 8))%Z.
Proof. apply cast_from_bytes_bounded. Qed.

(** ** Rotation *)

(** X4. [rotr] on a [bits]-bit word is a rotation: the result is again a
    [bits]-bit word, and its bit [i] is bit [(i + s) mod bits] of the
    argument, for every shift count [s]. *)
Theorem rotr_rotates (bits : nat) (x s : Z) :
  0 < bits → (0 ≤ x < 2 ^ Z.of_nat bits)%Z →
  (0 ≤ rotr bits x s < 2 ^ Z.of_nat bits)%Z ∧
  ∀ i, (0 ≤ i < Z.of_nat bits)%Z →
    Z.testbit (rotr bits x s) i = Z.testbit x ((i + s) mod Z.of_nat bits).
Proof.
  intros Hbits Hx. unfold rotr.
  pose proof (Z.mod_pos_bound s (Z.of_nat bits) ltac:(lia)) as Hr.
  set (r := (s mod Z.of_nat bits)%Z) in *.
  assert (∀ i, (0 ≤ i < Z.of_nat bits)%Z →
            ((i + s) mod Z.of_nat bits =
             if decide (i + r < Z.of_nat bits)%Z then i + r
             else i + r - Z.of_nat bits)%Z) as Hidx.
  { intros i Hi. rewrite <- Zplus_mod_idemp_r. fold r.
    case_decide.
    - apply Z.mod_small. lia.
    - symmetry. apply (Z.mod_unique_pos _ _ 1). lia. lia. }
  destruct (r =? 0)%Z eqn:Er.
  - apply Z.eqb_eq in Er. split; [done|].
    intros i Hi. rewrite Hidx by done. rewrite decide_True by lia.
    f_equal. lia.
  - apply Z.eqb_neq in Er. split.
    + apply lor_range; [lia | | apply wrap_range].
      split; [apply Z.shiftr_nonneg; lia|].
      rewrite Z.shiftr_div_pow2 by lia.
      apply Z.le_lt_trans with x; [|lia].
      apply Z.div_le_upper_bound; [apply Z.pow_pos_nonneg; lia|].
      assert (0 < 2 ^ r)%Z by (apply Z.pow_pos_nonneg; lia). nia.
    + intros i Hi. rewrite Hidx by done.
      unfold wrap. rewrite <- Z.land_ones by lia.
      rewrite Z.lor_spec, Z.shiftr_spec, Z.land_spec, Z.shiftl_spec by lia.
      rewrite Z.ones_spec_low by lia. rewrite andb_true_r.
      case_decide.
      * rewrite (Z.testbit_neg_r x (i - _)) by lia. apply orb_false_r.
      * rewrite (testbit_above x _ (i + r) Hx) by lia. simpl.
        f_equal. lia.
Qed.

(** ** Words stay in their type *)

Section FillRange.

Context {A : Type} `{!Inhabited A}.
Variables (F : list A → nat → A) (step : list A → nat → list A).
Hypothesis step_eq : ∀ w i, step w i = <[i := F w i]> w.

(** Every entry written by the loop is a value of [F]. *)
Lemma fill_written (P : A → Prop) w a n j :
  (∀ u i, P (F u i)) → a ≤ j < a + n → j < length w →
  P (foldl step w (seq a n) !!! j).
Proof.
  intros HP. induction n as [|n IH]; intros Hj Hlen; [lia|].
  rewrite seq_S, foldl_app. simpl. rewrite step_eq.
  destruct (decide (j = a + n)) as [->|Hne].
  - rewrite list_lookup_total_insert_eq; [apply HP|].
    by rewrite (length_fill F step step_eq).
  - rewrite list_lookup_total_insert_ne by lia. apply IH; [lia | done].
Qed.

End FillRange.

Section Ranges.

Context (config : Config).

Lemma staging_load_eq chunk (w : list Z) i :
  staging_load config chunk w i =
  <[i := cast_from_bytes (word_size config)
           (take (word_size config) (drop (i * word_size config) chunk))]> w.
Proof. done. Qed.

Lemma build_staging_words chunk i :
  i < staging_size config → word_ok config (build_staging config chunk !!! i).
Proof.
  intros Hi. unfold build_staging.
  set (w1 := foldl (staging_load config chunk) _ _).
  assert (length w1 = staging_size config) as Hw1.
  { unfold w1. rewrite (length_fill _ _ (staging_load_eq chunk)).
    apply length_replicate. }
  destruct (decide (i < first_part_size config)) as [Hlt|Hge].
  - rewrite (fill_outside _ _ (staging_step_eq config)) by lia.
    apply (fill_written _ _ (staging_load_eq chunk)).
    + intros _ k. apply cast_from_bytes_bounded.
    + lia.
    + by rewrite length_replicate.
  - apply (fill_written _ _ (staging_step_eq config)).
    + intros u k. apply wrap_range.
    + lia.
    + by rewrite Hw1.
Qed.

(** X5. Every word of the schedule that [build_staging] returns is a value
    of the word type, whatever the block holds. *)
Theorem build_staging_in_range (chunk : list byte) :
  16 ≤ first_part_size config ≤ staging_size config →
  length chunk = block_size_bytes config →
  Forall (word_ok config) (build_staging config chunk).
Proof.
  intros _ _. apply Forall_lookup. intros i x Hx.
  rewrite <- (list_lookup_total_correct _ _ _ Hx).
  apply build_staging_words.
  rewrite <- (length_build_staging config chunk). by eapply lookup_lt_Some.
Qed.

Lemma rounds_words w state j :
  j < length state → word_ok config (rounds config w state !!! j).
Proof.
  intros Hj. unfold rounds.
  apply (fill_written _ _ (add_back_eq config _)).
  - intros u k. apply wrap_range.
  - lia.
  - done.
Qed.

Lemma rounds_words_ok w state :
  length state = 8 → words_ok config (rounds config w state).
Proof.
  intros Hlen. split; [by rewrite length_rounds|].
  apply Forall_lookup. intros i x Hx.
  rewrite <- (list_lookup_total_correct _ _ _ Hx).
  apply rounds_words.
  rewrite <- (length_rounds config w state). by eapply lookup_lt_Some.
Qed.

(** X6. [rounds] maps a state of eight words to a state of eight words of
    the word type, whatever the schedule and the old state hold: the
    feed-forward wraps every sum. *)
Theorem rounds_in_range (w : list Z) (state : working) :
  words_ok config (rounds config w (working_list state)).
Proof.
  apply rounds_words_ok. by destruct state as [[[[[[[a b] c] d] e] f] g] h].
Qed.

Lemma loop_hash_ok fuel h inp h' :
  length (hash h) = 8 →
  update_to_buffer_and_process config fuel h inp = Some h' →
  length (hash h') = 8 ∧ (hash h' = hash h ∨ words_ok config (hash h')).
Proof.
  revert h inp. induction fuel as [|fuel IH]; intros h inp Hlen Hrun; [done|].
  simpl in Hrun. repeat case_decide; try done.
  - injection Hrun as <-. simpl. auto.
  - apply IH in Hrun; [|simpl; by rewrite length_rounds].
    destruct Hrun as (Hlen' & [Heq|Hok]); split; auto.
    right. rewrite Heq. simpl. by apply rounds_words_ok.
Qed.

Lemma reachable_hash_ok h :
  words_ok config (initial_values config) → reachable config h →
  words_ok config (hash h).
Proof.
  intros Hiv. induction 1 as [|h input h' _ IH Hupd]; [done|].
  unfold update in Hupd. apply loop_hash_ok in Hupd; [|apply IH].
  destruct Hupd as (Hlen & [Heq|Hok]); [|done]. by rewrite Heq.
Qed.

(** X7. The running state is always eight values of the word type: when
    the initial values of the Config are, so is [hash] in every state
    reached by [update] calls, and so is it after [finalize_buffer]. *)
Theorem hash_words_invariant (h : internal_hasher) :
  words_ok config (initial_values config) → reachable config h →
  words_ok config (hash h) ∧
  ∀ h', finalize_buffer config h = Some h' → words_ok config (hash h').
Proof.
  intros Hiv Hreach. pose proof (reachable_hash_ok h Hiv Hreach) as Hok.
  split; [done|]. intros h' Hfin. unfold finalize_buffer in Hfin.
  case_decide; [|done]. cbv zeta in Hfin.
  case_decide; injection Hfin as <-; simpl; apply rounds_words_ok.
  - rewrite length_rounds. apply Hok.
  - apply Hok.
Qed.

End Ranges.

(** ** Result writer *)

Section Writer.

Context (config : Config).

Local Abbreviation ws := (word_size config).
Local Abbreviation encode := (unwrap_bigendian_number (word_size config)).

Lemma length_write_result_into h out :
  length (write_result_into config h out) = length out.
Proof.
  unfold write_result_into.
  generalize (seq 0 (values_for_output config)) as idxs. intros idxs.
  revert out. induction idxs as [|i idxs IH]; intros out; [done|].
  simpl. by rewrite IH, length_inserts.
Qed.

Lemma length_concat_encode (l : list Z) :
  length (concat (encode <$> l)) = length l * ws.
Proof.
  induction l as [|x l IH]; [done|].
  rewrite fmap_cons. cbn [concat].
  rewrite length_app, length_unwrap_bigendian_number, IH. simpl. lia.
Qed.

Lemma write_prefix_eq h out n :
  n ≤ length (hash h) → n * ws ≤ length out →
  foldl (λ out i, list_inserts (i * ws) (encode (hash h !!! i)) out) out (seq 0 n) =
  concat (encode <$> take n (hash h)) ++ drop (n * ws) out.
Proof.
  induction n as [|n IH]; intros Hn Hout; [done|].
  rewrite seq_S, foldl_app, IH by lia. simpl.
  assert (length (concat (encode <$> take n (hash h))) = n * ws) as Hpre.
  { rewrite length_concat_encode, length_take. lia. }
  rewrite <- (Nat.add_0_r (n * ws)) at 1. rewrite <- Hpre at 1.
  rewrite list_inserts_app_r.
  rewrite <- (take_drop ws (drop (n * ws) out)) at 1.
  rewrite list_inserts_0_r
    by (rewrite length_unwrap_bigendian_number, length_take, length_drop; lia).
  rewrite drop_drop.
  rewrite (take_S_r _ _ (hash h !!! n))
    by (apply list_lookup_lookup_total_lt; lia).
  rewrite fmap_app, concat_app. simpl.
  rewrite app_nil_r, <- app_assoc. do 3 f_equal. lia.
Qed.

(** X8. [write_result_into] serialises the first [values_for_output] state
    words, each big-endian and one after the other, at the start of the
    output; the bytes of the output after them are not touched and its
    length does not change. *)
Theorem write_result_into_serialises (h : internal_hasher) (out : list byte) :
  values_for_output config ≤ length (hash h) →
  values_for_output config * word_size config ≤ length out →
  write_result_into config h out =
    concat (unwrap_bigendian_number (word_size config)
              <$> take (values_for_output config) (hash h)) ++
    drop (values_for_output config * word_size config) out ∧
  length (write_result_into config h out) = length out.
Proof.
  intros Hvo Hout. split; [|apply length_write_result_into].
  unfold write_result_into. by apply write_prefix_eq.
Qed.

Lemma window_concat_encode (l : list Z) (rest : list byte) i :
  i < length l →
  take ws (drop (i * ws) (concat (encode <$> l) ++ rest)) = encode (l !!! i).
Proof.
  revert i. induction l as [|x l IH]; intros i Hi; [simpl in Hi; lia|].
  rewrite fmap_cons. cbn [concat]. rewrite <- app_assoc. destruct i as [|i].
  - rewrite Nat.mul_0_l, drop_0. rewrite take_app_length'; [done|].
    by rewrite length_unwrap_bigendian_number.
  - replace (S i * ws) with (length (encode x) + i * ws)
      by (rewrite length_unwrap_bigendian_number; lia).
    rewrite <- drop_drop, drop_app_length. simpl in Hi.
    rewrite IH by lia. done.
Qed.

(** X9. The digest read back word by word is the state: for each
    [i < values_for_output], decoding the [i]-th [word_size]-byte window of
    what [write_result_into] wrote gives [hash[i]], provided [hash[i]] is a
    value of the word type. *)
Theorem write_result_into_read_back (h : internal_hasher) (out : list byte) (i : nat) :
  values_for_output config ≤ length (hash h) →
  values_for_output config * word_size config ≤ length out →
  i < values_for_output config →
  word_ok config (hash h !!! i) →
  cast_from_bytes (word_size config)
    (take (word_size config)
       (drop (i * word_size config) (write_result_into config h out))) =
  hash h !!! i.
Proof.
  intros Hvo Hout Hi Hword. unfold write_result_into.
  rewrite write_prefix_eq by done.
  rewrite window_concat_encode by (rewrite length_take; lia).
  rewrite lookup_total_take, decide_True by done.
  rewrite unwrap_bigendian_number_be_bytes.
  pose proof (cast_from_bytes_be_value (be_bytes ws (hash h !!! i))) as E.
  rewrite length_be_bytes in E. rewrite E, be_value_be_bytes.
  apply Z.mod_small. unfold word_ok, word_bits in Hword.
  by replace (8 * Z.of_nat ws)%Z with (Z.of_nat (ws * 8)) by lia.
Qed.

(** X10. Hashing never fails: for every sequence of inputs, the [update]
    calls on a new hasher followed by [final()] return a digest, and it has
    [digest_length] bytes. *)
Theorem digest_of_total (inputs : list (list byte)) :
  0 < block_size_bytes config →
  ∃ d, digest_of config inputs = Some d ∧ length d = digest_length config.
Proof.
  intros Hpos. unfold digest_of.
  destruct (updates_ok config (new_hasher config) inputs
              (new_hasher_ok config Hpos)) as (h & -> & Hok & _).
  simpl. destruct (final_value_total config h Hok) as [[h' d] Hfin].
  rewrite Hfin. simpl. exists d. split; [done|].
  unfold final_value, final in Hfin.
  destruct (finalize_buffer config h) as [h''|]; [|done].
  simpl in Hfin. injection Hfin as _ <-.
  by rewrite length_write_result_into, length_replicate.
Qed.

End Writer.

(** ** Streaming as block iteration *)

Lemma full_blocks_short n (l : list byte) :
  length l < n → full_blocks n l = [].
Proof. intros Hlt. unfold full_blocks. by rewrite Nat.div_small. Qed.

Lemma div_block n m : 0 < n → n ≤ m → m / n = S ((m - n) / n).
Proof.
  intros Hn Hle. replace m with (1 * n + (m - n)) at 1 by lia.
  rewrite Nat.div_add_l by lia. lia.
Qed.

Lemma full_blocks_cons n (l : list byte) :
  0 < n → n ≤ length l →
  full_blocks n l = take n l :: full_blocks n (drop n l).
Proof.
  intros Hn Hle. unfold full_blocks.
  rewrite (div_block n (length l)) by done. rewrite length_drop.
  cbn [seq fmap list_fmap]. rewrite Nat.mul_0_l, drop_0. f_equal.
  rewrite <- fmap_S_seq, <- list_fmap_compose.
  apply list_fmap_ext. intros _ i _. simpl.
  by rewrite drop_drop.
Qed.

Lemma trailing_short n (l : list byte) : length l < n → trailing n l = l.
Proof. intros Hlt. unfold trailing. by rewrite Nat.div_small. Qed.

Lemma trailing_cons n (l : list byte) :
  0 < n → n ≤ length l → trailing n l = trailing n (drop n l).
Proof.
  intros Hn Hle. unfold trailing.
  rewrite (div_block n (length l)) by done. rewrite length_drop.
  by rewrite drop_drop.
Qed.

Lemma length_trailing n (l : list byte) :
  0 < n → length (trailing n l) = length l mod n.
Proof.
  intros Hn. unfold trailing. rewrite length_drop.
  rewrite (Nat.Div0.mod_eq (length l) n). lia.
Qed.

Section Stream.

Context (config : Config).

Local Abbreviation B := (block_size_bytes config).
Local Abbreviation loop := (update_to_buffer_and_process config).

Lemma length_buffered h :
  hasher_ok config h → length (buffered h) = block_used h.
Proof.
  intros (Hlen & Hused & _). unfold buffered. rewrite length_take. lia.
Qed.

Lemma buffered_buffer_bytes h inp :
  hasher_ok config h → length inp < B - block_used h →
  buffered (buffer_bytes config h inp) = buffered h ++ inp.
Proof.
  intros (Hlen & Hused & _) Hlt. unfold buffered, buffer_bytes. simpl.
  rewrite list_inserts_take_drop by lia.
  rewrite app_assoc. apply take_app_length'.
  rewrite length_app, length_take. lia.
Qed.

Lemma flush_block_hash h inp :
  hasher_ok config h → B - block_used h ≤ length inp →
  hash (flush_block config h inp) =
  compress config (hash h) (take B (buffered h ++ inp)).
Proof.
  intros (Hlen & Hused & _) Hge. unfold flush_block, compress, buffered. simpl.
  do 2 f_equal.
  rewrite list_inserts_take_drop by (rewrite length_take; lia).
  rewrite drop_ge by (rewrite length_take; lia).
  rewrite app_nil_r.
  rewrite take_app_ge by (rewrite length_take; lia).
  rewrite length_take. do 2 f_equal. lia.
Qed.

(** The loop compresses the full blocks of what was buffered followed by
    the input, and keeps the rest in the buffer. *)
Lemma loop_absorbs fuel h inp h' :
  0 < B → hasher_ok config h → loop fuel h inp = Some h' →
  hash h' =
    foldl (compress config) (hash h) (full_blocks B (buffered h ++ inp)) ∧
  buffered h' = trailing B (buffered h ++ inp).
Proof.
  intros Hpos. revert h inp.
  induction fuel as [|fuel IH]; intros h inp Hok Hrun; [done|].
  pose proof Hok as (Hlen & Hused & _).
  pose proof (length_buffered h Hok) as Hbuf.
  destruct (decide (length inp < B - block_used h)) as [Hlt|Hge].
  - rewrite loop_partial in Hrun by done. injection Hrun as <-.
    rewrite full_blocks_short, trailing_short
      by (rewrite length_app, Hbuf; lia).
    split; [done | by apply buffered_buffer_bytes].
  - rewrite loop_flush in Hrun by lia.
    apply IH in Hrun; [|by apply flush_block_ok].
    destruct Hrun as (Hhash & Htrail).
    assert (buffered (flush_block config h inp) = []) as Hnil by done.
    rewrite Hnil in Hhash, Htrail. simpl in Hhash, Htrail.
    assert (drop B (buffered h ++ inp) = drop (B - block_used h) inp)
      as Hdrop.
    { rewrite drop_app_ge by lia. by rewrite Hbuf. }
    rewrite full_blocks_cons, trailing_cons
      by (rewrite ?length_app, ?Hbuf; lia).
    rewrite Hdrop. simpl. rewrite <- flush_block_hash by (done || lia).
    done.
Qed.

(** X11. One [update] call compresses, in order, the full blocks of the
    bytes that were buffered followed by the input, and leaves the rest
    buffered at the start of the block; [block_used] becomes
    [(block_used + length input) mod block_size_bytes]. *)
Theorem update_absorbs (h : internal_hasher) (input : list byte) :
  hasher_ok config h →
  ∃ h', update config h input = Some h' ∧
    hash h' =
      foldl (compress config) (hash h)
        (full_blocks B (buffered h ++ input)) ∧
    buffered h' = trailing B (buffered h ++ input) ∧
    block_used h' = (block_used h + length input) mod B.
Proof.
  intros Hok. pose proof (hasher_ok_pos config h Hok) as Hpos.
  destruct (update_ok config h input Hok) as (h' & Hupd & Hok' & _).
  exists h'. split; [done|].
  destruct (loop_absorbs _ h input h' Hpos Hok Hupd) as (Hhash & Htrail).
  split; [done|]. split; [done|].
  rewrite <- (length_buffered h' Hok'), Htrail, length_trailing by done.
  by rewrite length_app, (length_buffered h Hok).
Qed.

Lemma length_concat_inputs (inputs : list (list byte)) :
  length (concat inputs) = input_bytes inputs.
Proof.
  induction inputs as [|x xs IH]; [done|].
  simpl. by rewrite length_app, IH.
Qed.

(** X12. After any sequence of [update] calls on a new hasher the state is
    a function of the concatenated input alone: [hash] is the iteration of
    the compression over its full blocks, starting from the initial
    values, the incomplete last block is what is buffered, and
    [block_used] is the number of input bytes modulo the block size. *)
Theorem updates_absorb (inputs : list (list byte)) :
  0 < B →
  ∃ h, updates config (new_hasher config) inputs = Some h ∧
    hash h =
      foldl (compress config) (initial_values config)
        (full_blocks B (concat inputs)) ∧
    buffered h = trailing B (concat inputs) ∧
    block_used h = input_bytes inputs mod B.
Proof.
  intros Hpos. pose proof (new_hasher_ok config Hpos) as Hnew.
  rewrite updates_concat by done.
  destruct (update_ok config _ (concat inputs) Hnew) as (h & Hupd & Hok & _).
  exists h. split; [done|].
  destruct (loop_absorbs _ _ _ h Hpos Hnew Hupd) as (Hhash & Htrail).
  change (buffered (new_hasher config)) with (@nil byte) in *.
  simpl in Hhash, Htrail. split; [done|]. split; [done|].
  rewrite <- (length_buffered h Hok), Htrail, length_trailing by done.
  by rewrite length_concat_inputs.
Qed.

(** X13. An [update] with no bytes changes nothing. *)
Theorem update_empty_input (h : internal_hasher) :
  hasher_ok config h → update config h [] = Some h.
Proof. apply update_nil. Qed.


End Stream.

(** ** Finalisation as padding *)

Lemma full_blocks_app n (a b : list byte) q :
  0 < n → length a = q * n →
  full_blocks n (a ++ b) = full_blocks n a ++ full_blocks n b.
Proof.
  intros Hn. revert a. induction q as [|q IH]; intros a Hlen.
  - destruct a; [|simpl in Hlen; lia].
    by rewrite (full_blocks_short n []) by (simpl; lia).
  - assert (n ≤ length a) as Hle by (simpl in Hlen; lia).
    rewrite (full_blocks_cons n (a ++ b)) by (rewrite ?length_app; lia).
    rewrite (full_blocks_cons n a) by done.
    rewrite take_app_le, drop_app_le by done.
    rewrite IH by (rewrite length_drop; simpl in Hlen; lia). done.
Qed.

Lemma full_blocks_split n (l b : list byte) :
  0 < n →
  full_blocks n (l ++ b) = full_blocks n l ++ full_blocks n (trailing n l ++ b).
Proof.
  intros Hn.
  assert (length l / n * n ≤ length l) as Hq.
  { pose proof (Nat.Div0.mul_div_le (length l) n). lia. }
  assert (full_blocks n l = full_blocks n (take (length l / n * n) l)) as ->.
  { rewrite <- (take_drop (length l / n * n) l) at 1.
    rewrite (full_blocks_app n _ _ (length l / n))
      by (done || (rewrite length_take; lia)).
    fold (trailing n l).
    rewrite (full_blocks_short n (trailing n l)), app_nil_r; [done|].
    rewrite length_trailing by done. by apply Nat.mod_upper_bound, Nat.neq_0_lt_0. }
  rewrite <- (full_blocks_app n _ _ (length l / n))
    by (done || (rewrite length_take; lia)).
  unfold trailing. by rewrite app_assoc, take_drop.
Qed.

Lemma full_blocks_one n (blk rest : list byte) :
  0 < n → length blk = n →
  full_blocks n (blk ++ rest) = blk :: full_blocks n rest.
Proof.
  intros Hn Hlen.
  rewrite full_blocks_cons by (rewrite ?length_app; lia).
  by rewrite take_app_length', drop_app_length'.
Qed.

Lemma full_blocks_exact n (blk : list byte) :
  0 < n → length blk = n → full_blocks n blk = [blk].
Proof.
  intros Hn Hlen. rewrite <- (app_nil_r blk) at 1.
  rewrite full_blocks_one by done.
  by rewrite (full_blocks_short n []) by (simpl; lia).
Qed.

Section Padding.

Context (config : Config).

Local Abbreviation B := (block_size_bytes config).
Local Abbreviation L := (length_size_bits config / 8).

Lemma padded_block_buffered h :
  padded_block h =
  buffered h ++ [x80] ++ replicate (length (block h) - block_used h - 1) x00.
Proof. done. Qed.

(** [finalize_buffer] only looks at the buffered part of the block. *)
Lemma finalize_buffer_view h1 h2 :
  hash h1 = hash h2 → total_length h1 = total_length h2 →
  block_used h1 = block_used h2 → length (block h1) = length (block h2) →
  buffered h1 = buffered h2 →
  finalize_buffer config h1 = finalize_buffer config h2.
Proof.
  intros Hhash Htot Hused Hlen Hbuf. unfold finalize_buffer.
  destruct (decide (block_used h1 < length (block h1))) as [Hlt|Hge].
  - rewrite (decide_True (P := block_used h2 < _)) by lia.
    rewrite !padded_block_eq by lia.
    rewrite !padded_block_buffered.
    by rewrite Hhash, Htot, Hused, Hlen, Hbuf.
  - by rewrite (decide_False (P := block_used h2 < _)) by lia.
Qed.

Lemma new_hasher_with_ok blk :
  0 < B → length blk = B → hasher_ok config (new_hasher_with config blk).
Proof.
  intros Hpos Hlen. repeat split; simpl; [done | done | done |].
  apply Z.pow_pos_nonneg; lia.
Qed.

(** X15. The constructor leaves the block uninitialised; the digest does
    not depend on what it holds: whatever the block of a new hasher
    contains, the same [update] calls followed by [final()] give the
    digest obtained from an all-zero block. *)
Theorem digest_ignores_initial_block (blk : list byte) (inputs : list (list byte)) :
  0 < B → length blk = B →
  digest_from config (new_hasher_with config blk) inputs =
  digest_of config inputs.
Proof.
  intros Hpos Hlen. unfold digest_from, digest_of.
  pose proof (new_hasher_with_ok blk Hpos Hlen) as Hok1.
  pose proof (new_hasher_ok config Hpos) as Hok2.
  rewrite !updates_concat by done.
  destruct (update_ok config _ (concat inputs) Hok1) as (h1 & Hupd1 & Hok1' & Htot1).
  destruct (update_ok config _ (concat inputs) Hok2) as (h2 & Hupd2 & Hok2' & Htot2).
  rewrite Hupd1, Hupd2. simpl.
  destruct (loop_absorbs config _ _ _ h1 Hpos Hok1 Hupd1) as (Hhash1 & Hbuf1).
  destruct (loop_absorbs config _ _ _ h2 Hpos Hok2 Hupd2) as (Hhash2 & Hbuf2).
  change (buffered (new_hasher_with config blk)) with (@nil byte) in *.
  change (buffered (new_hasher config)) with (@nil byte) in *.
  assert (finalize_buffer config h1 = finalize_buffer config h2) as Hfin.
  { apply finalize_buffer_view.
    - by rewrite Hhash1, Hhash2.
    - by rewrite Htot1, Htot2.
    - rewrite <- (length_buffered config h1), <- (length_buffered config h2) by done.
      by rewrite Hbuf1, Hbuf2.
    - destruct Hok1' as (-> & _), Hok2' as (-> & _). done.
    - by rewrite Hbuf1, Hbuf2. }
  unfold final_value, final. by rewrite Hfin.
Qed.

Lemma zero_pad_eq len :
  1 + L ≤ B →
  zero_pad config len =
  if decide (B - len mod B < 1 + L) then 2 * B - (len mod B + 1 + L)
  else B - (len mod B + 1 + L).
Proof.
  intros HL. unfold zero_pad.
  assert (len mod B < B) as Hu by (apply Nat.mod_upper_bound; lia).
  replace (len + 1 + L) with (len + (1 + L)) by lia.
  rewrite <- Nat.Div0.add_mod_idemp_l.
  set (u := len mod B) in *.
  case_decide as Hfree.
  - assert ((u + (1 + L)) mod B = u + (1 + L) - B) as ->.
    { symmetry. apply (Nat.mod_unique _ _ 1); lia. }
    rewrite Nat.mod_small by lia. lia.
  - destruct (decide (u + (1 + L) = B)) as [Heq|Hne].
    + rewrite Heq, Nat.Div0.mod_same, Nat.sub_0_r, Nat.Div0.mod_same. lia.
    + rewrite (Nat.mod_small (u + (1 + L))) by lia.
      rewrite Nat.mod_small by lia. lia.
Qed.

(** X16. [final] hashes the padded message: after [update] on a new hasher
    with the message [S], [finalize_buffer] leaves in [hash] the iteration
    of the compression, from the initial values, over the blocks of [S]
    followed by the terminator [0x80], the least number of zero bytes and
    the bit count of [S] on [length_size_bits] bits; that padded message
    is a whole number of blocks.  The bit count fits [length_type], whose
    size is at most that of the length field, and terminator and length
    field fit in one block. *)
Theorem final_hashes_padded_message (msg : list byte) :
  length_size config ≤ L → 1 + L ≤ B →
  (Z.of_nat (length msg) * 8 < 2 ^ Z.of_nat (length_bits config))%Z →
  ∃ h h',
    update config (new_hasher config) msg = Some h ∧
    finalize_buffer config h = Some h' ∧
    hash h' =
      foldl (compress config) (initial_values config)
        (full_blocks B (msg ++ sha_padding config (length msg))) ∧
    length (msg ++ sha_padding config (length msg)) mod B = 0.
Proof.
  intros Hls HL Hfit.
  assert (0 < B) as Hpos by lia.
  pose proof (new_hasher_ok config Hpos) as Hnew.
  destruct (update_ok config _ msg Hnew) as (h & Hupd & Hok & Htot).
  destruct (loop_absorbs config _ _ _ h Hpos Hnew Hupd) as (Hhash & Hbuf).
  change (buffered (new_hasher config)) with (@nil byte) in *.
  simpl in Hhash, Hbuf, Htot.
  rewrite wrap_small in Htot by lia.
  pose proof Hok as (Hlen & Hused & _).
  pose proof (length_buffered config h Hok) as Hu.
  rewrite Hbuf, length_trailing in Hu by done.
  exists h. rewrite finalize_buffer_eq by lia. cbv zeta.
  eexists. split; [done|]. split; [done|]. cbn [hash].
  assert (bit_count config h = (Z.of_nat (length msg) * 8)%Z) as Hbits.
  { unfold bit_count. rewrite Htot. apply wrap_small. lia. }
  assert (0 ≤ Z.of_nat (length msg) * 8 < 2 ^ (8 * Z.of_nat (length_size config)))%Z
    as Hrange.
  { split; [lia|]. unfold length_bits in Hfit.
    by replace (8 * Z.of_nat (length_size config))%Z
      with (Z.of_nat (length_size config * 8)) by lia. }
  assert (be_bytes L (Z.of_nat (length msg) * 8) =
          replicate (L - length_size config) x00 ++
          be_bytes (length_size config) (Z.of_nat (length msg) * 8)) as Hfield.
  { replace L with ((L - length_size config) + length_size config) at 1 by lia.
    by apply be_bytes_pad. }
  pose proof (Nat.div_mod_eq (length msg) B) as Hdiv.
  rewrite full_blocks_split by done. rewrite foldl_app, <- Hhash.
  unfold sha_padding. rewrite zero_pad_eq by done.
  rewrite Hfield. unfold with_bit_count.
  rewrite Hbits, padded_block_buffered, Hlen, <- Hbuf.
  pose proof (length_buffered config h Hok) as Ht.
  rewrite Hu in *.
  set (u := block_used h) in *. set (t := buffered h) in *.
  set (ls := length_size config) in *.
  set (field := be_bytes ls (Z.of_nat (length msg) * 8)).
  assert (length field = ls) as Hlf by apply length_be_bytes.
  destruct (decide (B - u < 1 + L)) as [Hfree|Hfree].
  - rewrite bool_decide_eq_true_2 by done.
    rewrite length_replicate, take_replicate, Nat.min_l by lia.
    assert (t ++ [x80] ++ replicate (2 * B - (u + 1 + L)) x00 ++
            replicate (L - ls) x00 ++ field =
            (t ++ [x80] ++ replicate (B - u - 1) x00) ++
            (replicate (B - ls) x00 ++ field)) as ->.
    { rewrite <- !app_assoc. do 2 f_equal.
      rewrite !app_assoc. f_equal. rewrite <- !replicate_add. f_equal. lia. }
    split.
    + rewrite full_blocks_one, full_blocks_exact; try done.
      * rewrite length_app, length_replicate. lia.
      * rewrite !length_app, length_replicate. cbn [length]. lia.
    + match goal with |- ?n mod _ = 0 =>
        assert (n = (length msg / B + 2) * B) as ->
          by (rewrite !length_app, !length_replicate, Hlf; cbn [length]; lia)
      end.
      apply Nat.Div0.mod_mul.
  - rewrite bool_decide_eq_false_2 by done.
    assert (take (length (t ++ [x80] ++ replicate (B - u - 1) x00) - ls)
              (t ++ [x80] ++ replicate (B - u - 1) x00) =
            t ++ [x80] ++ replicate (B - (u + 1 + L)) x00 ++
            replicate (L - ls) x00) as ->.
    { rewrite <- replicate_add.
      replace (B - u - 1) with ((B - (u + 1 + L) + (L - ls)) + ls) by lia.
      rewrite (replicate_add _ ls), !app_assoc.
      apply take_app_length'.
      rewrite !length_app, !length_replicate. cbn [length]. lia. }
    rewrite <- !app_assoc.
    split.
    + rewrite full_blocks_exact; try done.
      rewrite !length_app, !length_replicate, Hlf. cbn [length]. lia.
    + match goal with |- ?n mod _ = 0 =>
        assert (n = (length msg / B + 1) * B) as ->
          by (rewrite !length_app, !length_replicate, Hlf; cbn [length]; lia)
      end.
      apply Nat.Div0.mod_mul.
Qed.

End Padding.

(** ** Length field, character arrays, uninitialised schedule *)

Section More.

Context (config : Config).

Local Abbreviation B := (block_size_bytes config).
Local Abbreviation L := (length_size_bits config / 8).

Lemma with_bit_count_tail_wrap h blk n :
  length blk = n → length_size config ≤ L → L ≤ n →
  drop (n - L) blk = replicate L x00 →
  drop (n - L) (with_bit_count config h blk) = be_bytes L (bit_count config h).
Proof.
  intros <- Hls HL Hzero. unfold with_bit_count.
  rewrite drop_app_le by (rewrite length_take; lia).
  replace (take (length blk - length_size config) blk)
    with (take (length blk - L) blk ++
          take (L - length_size config) (drop (length blk - L) blk)).
  2:{ rewrite take_take_drop. f_equal. lia. }
  rewrite drop_app_length' by (rewrite length_take; lia).
  rewrite Hzero, take_replicate, Nat.min_l by lia.
  replace L with ((L - length_size config) + length_size config) at 2 by lia.
  rewrite be_bytes_pad; [done|].
  pose proof (wrap_range (length_bits config) (total_length h * 8)) as Hr.
  unfold bit_count, length_bits in *.
  by replace (8 * Z.of_nat (length_size config))%Z
    with (Z.of_nat (length_size config * 8)) by lia.
Qed.

(** X17. The length field always holds the bit count as [length_type]
    computes it: for every [total_length], also one whose bit count
    overflows, the last [length_size_bits/8] bytes of the final block are
    [total_length * 8] reduced modulo [2 ^ (8 * sizeof(length_type))],
    big-endian. *)
Theorem finalize_buffer_length_field_wraps (h : internal_hasher) :
  length (block h) = B → block_used h < B →
  length_size config ≤ L → L ≤ B →
  ∃ h', finalize_buffer config h = Some h' ∧
    drop (B - L) (block h') =
      be_bytes L ((total_length h * 8) mod 2 ^ Z.of_nat (length_bits config)).
Proof.
  intros Hlen Hlt Hls HL.
  rewrite finalize_buffer_eq by (rewrite Hlen; lia).
  cbv zeta. rewrite Hlen. eexists. split; [done|]. cbn [block].
  change ((total_length h * 8) mod 2 ^ Z.of_nat (length_bits config))%Z
    with (bit_count config h).
  case_bool_decide as Hfree.
  - apply with_bit_count_tail_wrap; try done.
    + apply length_replicate.
    + rewrite drop_replicate. f_equal. lia.
  - apply with_bit_count_tail_wrap; try done.
    + rewrite length_padded_block; [done | by rewrite Hlen].
    + rewrite <- Hlen. apply padded_block_tail. rewrite Hlen. lia.
Qed.

(** X18. The character-array overload drops the last element of the array
    whatever it is, not only a terminating NUL: [update] on an array
    [s ++ [c]] is [update] on [s], and on a one-element array (the literal
    [""]) it leaves the hasher as it is. *)
Theorem update_literal_drops_last (h : internal_hasher) (s : list byte) (c : byte) :
  hasher_ok config h →
  update_literal config h (s ++ [c]) = update config h s ∧
  update_literal config h [c] = Some h.
Proof.
  intros Hok. unfold update_literal. split.
  - rewrite length_app. simpl.
    replace (length s + 1 - 1) with (length s) by lia.
    by rewrite take_app_length.
  - simpl. by apply update_nil.
Qed.

Lemma build_staging_from_length w0 chunk :
  length (build_staging_from config w0 chunk) = length w0.
Proof.
  unfold build_staging_from.
  by rewrite (length_fill _ _ (staging_step_eq config)),
    (length_fill _ _ (staging_load_eq config chunk)).
Qed.

Lemma build_staging_from_entry w0 chunk i :
  16 ≤ first_part_size config ≤ staging_size config →
  length w0 = staging_size config → i < staging_size config →
  let w := build_staging_from config w0 chunk in
  w !!! i =
    if decide (i < first_part_size config) then
      cast_from_bytes (word_size config)
        (take (word_size config) (drop (i * word_size config) chunk))
    else
      wrap (word_bits config)
        (w !!! (i - 16) + schedule_s0 config (w !!! (i - 15)) +
         w !!! (i - 7) + schedule_s1 config (w !!! (i - 2))).
Proof.
  intros [H16 Hss] Hlen Hi w. unfold w, build_staging_from.
  set (w1 := foldl (staging_load config chunk) _ _).
  assert (length w1 = staging_size config) as Hw1.
  { unfold w1. by rewrite (length_fill _ _ (staging_load_eq config chunk)). }
  case_decide as Hfirst.
  - rewrite (fill_outside _ _ (staging_step_eq config)) by lia.
    unfold w1.
    rewrite (fill_inside _ _ (staging_load_eq config chunk)); [done | lia | done | lia].
  - rewrite (fill_inside _ _ (staging_step_eq config)) at 1.
    + done.
    + lia.
    + intros j u v Hj Huv. rewrite !Huv by lia. done.
    + lia.
Qed.

(** X19. [build_staging] never reads an entry of [w] before writing it:
    whatever the uninitialised array holds at first, the schedule is the
    same. *)
Theorem build_staging_ignores_initial_array (w0 : list Z) (chunk : list byte) :
  16 ≤ first_part_size config ≤ staging_size config →
  length w0 = staging_size config →
  build_staging_from config w0 chunk = build_staging config chunk.
Proof.
  intros Hcfg Hlen.
  change (build_staging config chunk)
    with (build_staging_from config (replicate (staging_size config) 0%Z) chunk).
  set (z := replicate (staging_size config) 0%Z).
  assert (length z = staging_size config) as Hz by apply length_replicate.
  apply (list_eq_same_length _ _ (staging_size config));
    [by rewrite build_staging_from_length .. |].
  intros i. induction (lt_wf i) as [i _ IH]. intros x y Hi Hx Hy.
  apply list_lookup_total_correct in Hx, Hy. subst x y.
  rewrite (build_staging_from_entry w0 chunk i),
    (build_staging_from_entry z chunk i) by done.
  cbv zeta. case_decide as Hfirst; [done|].
  assert (∀ k, k < i →
            build_staging_from config w0 chunk !!! k =
            build_staging_from config z chunk !!! k) as Hk.
  { intros k Hlt. apply (IH k Hlt); [lia | |];
      apply list_lookup_lookup_total_lt; rewrite build_staging_from_length; lia. }
  rewrite !Hk by lia. done.
Qed.

(** X20. [finalize_buffer] keeps the representation invariant: the block
    keeps its size, and [block_used] and [total_length] their values.  The
    code therefore cannot notice a second [final] or an [update] after
    [final]: both return as on any other state. *)
Theorem finalize_buffer_keeps_invariant (h : internal_hasher) :
  hasher_ok config h →
  ∃ h', finalize_buffer config h = Some h' ∧ hasher_ok config h' ∧
        is_Some (finalize_buffer config h') ∧
        ∀ input, is_Some (update config h' input).
Proof.
  intros Hok. pose proof Hok as (Hlen & Hused & Htot).
  assert (∃ h', finalize_buffer config h = Some h' ∧ hasher_ok config h')
    as (h' & Hfin & Hok').
  { unfold finalize_buffer. rewrite decide_True by lia. cbv zeta.
    case_decide; eexists; (split; [reflexivity|]);
      (split; [|done]); cbn [block];
      rewrite ?length_inserts, ?length_replicate, ?length_inserts,
        ?length_insert; done. }
  exists h'. split; [done|]. split; [done|]. split.
  - destruct (finalize_buffer_frame config h') as (h'' & -> & _); [|done].
    destruct Hok' as (-> & ? & _). done.
  - intros input. destruct (update_ok config h' input Hok') as (h'' & -> & _).
    done.
Qed.

End More.

(** ** The further properties at concrete inputs *)

Lemma rotr_rotates_witness :
  (0 ≤ rotr 32 0x80000001 4 < 2 ^ 32)%Z ∧
  ∀ i, (0 ≤ i < 32)%Z →
    Z.testbit (rotr 32 0x80000001 4) i = Z.testbit 0x80000001 ((i + 4) mod 32).
Proof.
  apply (rotr_rotates 32 0x80000001 4).
  - lia.
  - simpl. lia.
Defined.

Lemma build_staging_in_range_witness :
  Forall (word_ok sha256_config)
    (build_staging sha256_config (replicate 64 x61)).
Proof.
  apply (build_staging_in_range sha256_config (replicate 64 x61)).
  - vm_compute. lia.
  - reflexivity.
Defined.

Lemma hash_words_invariant_witness :
  words_ok sha256_config (hash sha256_after_56) ∧
  ∀ h', finalize_buffer sha256_config sha256_after_56 = Some h' →
        words_ok sha256_config (hash h').
Proof.
  apply (hash_words_invariant sha256_config sha256_after_56).
  - split; [reflexivity|].
    repeat (constructor; [vm_compute; split; [discriminate | reflexivity]|]).
    constructor.
  - apply (reachable_update sha256_config (new_hasher sha256_config)
             (replicate 56 x61)).
    + apply reachable_new.
    + vm_compute. reflexivity.
Defined.

Lemma write_result_into_serialises_witness :
  write_result_into sha256_config (new_hasher sha256_config) (replicate 40 xff) =
    concat (unwrap_bigendian_number 4 <$> initial_values sha256_config) ++
    replicate 8 xff ∧
  length (write_result_into sha256_config (new_hasher sha256_config)
            (replicate 40 xff)) = 40.
Proof.
  apply (write_result_into_serialises sha256_config (new_hasher sha256_config)
           (replicate 40 xff)).
  - vm_compute. lia.
  - vm_compute. lia.
Defined.

Lemma write_result_into_read_back_witness :
  cast_from_bytes 4
    (take 4 (drop 28 (write_result_into sha256_config
                        (new_hasher sha256_config) (replicate 32 x00)))) =
  0x5be0cd19%Z.
Proof.
  apply (write_result_into_read_back sha256_config (new_hasher sha256_config)
           (replicate 32 x00) 7).
  - vm_compute. lia.
  - vm_compute. lia.
  - vm_compute. lia.
  - vm_compute. split; [discriminate | reflexivity].
Defined.

Lemma digest_of_total_witness :
  ∃ d, digest_of sha512_config [[x61]; [x62; x63]] = Some d ∧ length d = 64.
Proof.
  apply (digest_of_total sha512_config [[x61]; [x62; x63]]).
  vm_compute. lia.
Defined.

Lemma update_absorbs_witness :
  ∃ h', update sha256_config sha256_after_56 (replicate 10 x62) = Some h' ∧
    hash h' =
      compress sha256_config (hash sha256_after_56)
        (replicate 56 x61 ++ replicate 8 x62) ∧
    buffered h' = [x62; x62] ∧
    block_used h' = 2.
Proof.
  apply (update_absorbs sha256_config sha256_after_56 (replicate 10 x62)).
  split; [reflexivity|]. split; [vm_compute; lia|].
  split; [simpl; lia | vm_compute; reflexivity].
Defined.

Lemma updates_absorb_witness :
  ∃ h, updates sha256_config (new_hasher sha256_config)
         [replicate 60 x61; replicate 70 x62] = Some h ∧
    hash h =
      foldl (compress sha256_config) (initial_values sha256_config)
        [replicate 60 x61 ++ replicate 4 x62; replicate 64 x62] ∧
    buffered h = [x62; x62] ∧
    block_used h = 2.
Proof.
  apply (updates_absorb sha256_config [replicate 60 x61; replicate 70 x62]).
  vm_compute. lia.
Defined.

Lemma update_empty_input_witness :
  update sha256_config sha256_after_56 [] = Some sha256_after_56.
Proof.
  apply (update_empty_input sha256_config sha256_after_56).
  split; [reflexivity|]. split; [vm_compute; lia|].
  split; [simpl; lia | vm_compute; reflexivity].
Defined.


Lemma digest_ignores_initial_block_witness :
  digest_from sha256_config (new_hasher_with sha256_config (replicate 64 xff))
    [[x61; x62; x63]] =
  digest_of sha256_config [[x61; x62; x63]].
Proof.
  apply (digest_ignores_initial_block sha256_config (replicate 64 xff)
           [[x61; x62; x63]]).
  - vm_compute. lia.
  - reflexivity.
Defined.

Lemma final_hashes_padded_message_witness :
  ∃ h h',
    update sha256_config (new_hasher sha256_config) [x61; x62; x63] = Some h ∧
    finalize_buffer sha256_config h = Some h' ∧
    hash h' =
      compress sha256_config (initial_values sha256_config)
        ([x61; x62; x63; x80] ++ replicate 59 x00 ++ [x18]) ∧
    length ([x61; x62; x63] ++ sha_padding sha256_config 3) mod 64 = 0.
Proof.
  apply (final_hashes_padded_message sha256_config [x61; x62; x63]).
  - vm_compute. lia.
  - vm_compute. lia.
  - vm_compute. reflexivity.
Defined.

Lemma finalize_buffer_length_field_wraps_witness :
  ∃ h', finalize_buffer sha256_config sha256_overflowing = Some h' ∧
        drop 56 (block h') = replicate 7 x00 ++ [x18].
Proof.
  apply (finalize_buffer_length_field_wraps sha256_config sha256_overflowing).
  - reflexivity.
  - vm_compute. lia.
  - vm_compute. lia.
  - vm_compute. lia.
Defined.

Lemma update_literal_drops_last_witness :
  update_literal sha256_config (new_hasher sha256_config) [x61; x62; xff] =
    update sha256_config (new_hasher sha256_config) [x61; x62] ∧
  update_literal sha256_config (new_hasher sha256_config) [xff] =
    Some (new_hasher sha256_config).
Proof.
  apply (update_literal_drops_last sha256_config (new_hasher sha256_config)
           [x61; x62] xff).
  split; [reflexivity|]. split; [vm_compute; lia|].
  split; [simpl; lia | vm_compute; reflexivity].
Defined.

Lemma build_staging_ignores_initial_array_witness :
  build_staging_from sha256_config (replicate 64 0xdeadbeef%Z) (replicate 64 x61) =
  build_staging sha256_config (replicate 64 x61).
Proof.
  apply (build_staging_ignores_initial_array sha256_config
           (replicate 64 0xdeadbeef%Z) (replicate 64 x61)).
  - vm_compute. lia.
  - reflexivity.
Defined.

Lemma finalize_buffer_keeps_invariant_witness :
  ∃ h', finalize_buffer sha256_config sha256_after_56 = Some h' ∧
        hasher_ok sha256_config h' ∧
        is_Some (finalize_buffer sha256_config h') ∧
        ∀ input, is_Some (update sha256_config h' input).
Proof.
  apply (finalize_buffer_keeps_invariant sha256_config sha256_after_56).
  split; [reflexivity|]. split; [vm_compute; lia|].
  split; [simpl; lia | vm_compute; reflexivity].
Defined.
